(** * Store model and mail handler: a shallow embedding

    The development follows [src/models/store.js] (the Mongoose schema of
    the Store collection with its pre-save slug hook, its two aggregation
    pipelines and its auto-populate query hooks) and the mail handler
    ([send] and [generateHTML]).

    The database is an explicit state: a list of Store documents and a
    list of Review documents.  Queries are functions of that state. *)

From Stdlib Require Import List String Ascii Bool Arith Lia.
From Stdlib Require Import Sorted Permutation.
From Stdlib Require Import ZArith QArith.
From Stdlib Require Import DecimalString DecimalNat.
Import ListNotations.

Set Implicit Arguments.

(** ** Characters and strings *)

Module Chars.

Definition code (c : ascii) : nat := nat_of_ascii c.

Definition is_upper (c : ascii) : bool := (65 <=? code c)%nat && (code c <=? 90)%nat.
Definition is_lower (c : ascii) : bool := (97 <=? code c)%nat && (code c <=? 122)%nat.
Definition is_digit (c : ascii) : bool := (48 <=? code c)%nat && (code c <=? 57)%nat.
Definition is_alnum (c : ascii) : bool := is_upper c || is_lower c || is_digit c.

(** ASCII white space: the space and U+0009 to U+000D.  All the white
    space of [String.prototype.trim] is in [JsString.is_white]. *)
Definition is_space (c : ascii) : bool :=
  (code c =? 32)%nat || ((9 <=? code c)%nat && (code c <=? 13)%nat).

Definition dash : ascii := "-"%char.
Definition is_dash (c : ascii) : bool := Ascii.eqb c dash.

Definition to_lower (c : ascii) : ascii :=
  if is_upper c then ascii_of_nat (code c + 32) else c.

(** The characters a slug is made of: lowercase letters and digits. *)
Definition is_slug_char (c : ascii) : bool := is_lower c || is_digit c.

Fixpoint drop_while (p : ascii -> bool) (l : list ascii) : list ascii :=
  match l with
  | [] => []
  | c :: t => if p c then drop_while p t else l
  end.

Definition is_nil (l : list ascii) : bool :=
  match l with [] => true | _ => false end.

Fixpoint drop_while_end (p : ascii -> bool) (l : list ascii) : list ascii :=
  match l with
  | [] => []
  | c :: t =>
      let t' := drop_while_end p t in
      if p c && is_nil t' then [] else c :: t'
  end.

End Chars.

Import Chars.

(** ** JavaScript strings and [String.prototype.trim]

    A string stands for the JavaScript string of which it is the UTF-8
    encoding, as a string literal of this file does; an ASCII character
    is one byte. *)

Module JsString.

(** The number of bytes of the character whose first byte is [c]. *)
Definition width (c : ascii) : nat :=
  if (code c <? 192)%nat then 1
  else if (code c <? 224)%nat then 2
  else if (code c <? 240)%nat then 3
  else 4.

(** The characters of a string, each with the bytes of its encoding; a
    character cut short by the end of the string keeps what is there. *)
Fixpoint split (fuel : nat) (l : list ascii) : list (list ascii) :=
  match fuel with
  | O => []
  | S fuel' =>
      match l with
      | [] => []
      | c :: _ => firstn (width c) l :: split fuel' (skipn (width c) l)
      end
  end.

Definition characters (l : list ascii) : list (list ascii) :=
  split (List.length l) l.

(** WhiteSpace and LineTerminator of ECMAScript, the characters that
    [trim] removes: U+0009 to U+000D, U+0020, U+00A0, U+1680, U+2000 to
    U+200A, U+2028, U+2029, U+202F, U+205F, U+3000 and U+FEFF, each by
    the bytes of its encoding. *)
Definition white_space : list (list nat) :=
  [[9]; [10]; [11]; [12]; [13]; [32];
   [194; 160];
   [225; 154; 128];
   [226; 128; 128]; [226; 128; 129]; [226; 128; 130]; [226; 128; 131];
   [226; 128; 132]; [226; 128; 133]; [226; 128; 134]; [226; 128; 135];
   [226; 128; 136]; [226; 128; 137]; [226; 128; 138];
   [226; 128; 168]; [226; 128; 169];
   [226; 128; 175];
   [226; 129; 159];
   [227; 128; 128];
   [239; 187; 191]]%nat.

Definition same_bytes (a b : list nat) : bool :=
  if list_eq_dec Nat.eq_dec a b then true else false.

Definition is_white (ch : list ascii) : bool :=
  existsb (same_bytes (map code ch)) white_space.

Fixpoint drop_front (A : Type) (p : A -> bool) (l : list A) : list A :=
  match l with
  | [] => []
  | x :: t => if p x then drop_front p t else l
  end.

Fixpoint drop_back (A : Type) (p : A -> bool) (l : list A) : list A :=
  match l with
  | [] => []
  | x :: t =>
      match drop_back p t with
      | [] => if p x then [] else [x]
      | y :: r => x :: y :: r
      end
  end.

Definition clean_front (A : Type) (p : A -> bool) (l : list A) : bool :=
  match l with
  | [] => true
  | x :: _ => negb (p x)
  end.

Fixpoint clean_back (A : Type) (p : A -> bool) (l : list A) : bool :=
  match l with
  | [] => true
  | x :: t =>
      match t with
      | [] => negb (p x)
      | _ :: _ => clean_back p t
      end
  end.

(** The characters left when the white space at both ends is gone. *)
Definition kept (l : list ascii) : list (list ascii) :=
  drop_back is_white (drop_front is_white (characters l)).

Definition trim (s : string) : string :=
  string_of_list_ascii (List.concat (kept (list_ascii_of_string s))).

(** A split into characters as [characters] makes it: every character
    whole, the last one perhaps cut short. *)
Definition whole (ch : list ascii) : bool :=
  match ch with
  | [] => false
  | c :: _ => (List.length ch =? width c)%nat
  end.

Definition started (ch : list ascii) : bool :=
  match ch with
  | [] => false
  | c :: _ => (List.length ch <=? width c)%nat
  end.

Fixpoint well_split (cs : list (list ascii)) : bool :=
  match cs with
  | [] => true
  | ch :: rest =>
      match rest with
      | [] => started ch
      | _ :: _ => whole ch && well_split rest
      end
  end.

End JsString.

(** ** The slugify transform *)

Module Slug.

(** Runs of non-alphanumeric characters become one dash.  [in_run] tells
    that the previous character already belonged to the current run. *)
Fixpoint collapse_run (in_run : bool) (l : list ascii) : list ascii :=
  match l with
  | [] => []
  | c :: t =>
      if is_alnum c then c :: collapse_run false t
      else if in_run then collapse_run true t
      else dash :: collapse_run true t
  end.

Definition trim (l : list ascii) : list ascii :=
  drop_while_end is_space (drop_while is_space l).

Definition strip_dashes (l : list ascii) : list ascii :=
  drop_while_end is_dash (drop_while is_dash l).

Definition slug_chars (l : list ascii) : list ascii :=
  strip_dashes (collapse_run false (trim (map to_lower l))).

(** Modelled from the spec: the [slugs] package that [store.js] requires
    as [slug] is not part of the sources.  The spec (section 4.1, step 2)
    gives the transform: lowercase, trim, replace runs of non-alphanumeric
    characters with a single dash, strip leading and trailing dashes. *)
Definition slug (name : string) : string :=
  string_of_list_ascii (slug_chars (list_ascii_of_string name)).

(** The shape of a slug: slug characters and dashes only, no dash next
    to another, none in front and none at the end. *)
Definition is_ok_char (c : ascii) : bool := is_slug_char c || is_dash c.

Definition clean_start (p : ascii -> bool) (l : list ascii) : bool :=
  match l with
  | [] => true
  | c :: _ => negb (p c)
  end.

Fixpoint clean_end (p : ascii -> bool) (l : list ascii) : bool :=
  match l with
  | [] => true
  | c :: t =>
      match t with
      | [] => negb (p c)
      | _ :: _ => clean_end p t
      end
  end.

Fixpoint single_dashes (l : list ascii) : bool :=
  match l with
  | [] => true
  | c :: t =>
      (if is_dash c then clean_start is_dash t else true) && single_dashes t
  end.

Definition shaped (l : list ascii) : bool :=
  forallb is_ok_char l && single_dashes l
  && clean_start is_dash l && clean_end is_dash l.

End Slug.

(** ** Regular expressions, as far as the slug query needs them *)

Module RegExp.

Inductive regex : Type :=
| Eps : regex                             (* the empty pattern *)
| Bol : regex                             (* ^ *)
| Eol : regex                             (* $ *)
| Chr : ascii -> regex                    (* a literal character *)
| Range : ascii -> ascii -> regex         (* [lo-hi] *)
| Cat : regex -> regex -> regex
| Alt : regex -> regex -> regex
| Star : regex -> regex.

(** [r?] *)
Definition Opt (r : regex) : regex := Alt r Eps.

(** A string without metacharacters, read as a pattern. *)
Fixpoint lit (l : list ascii) : regex :=
  match l with
  | [] => Eps
  | c :: t => Cat (Chr c) (lit t)
  end.

Definition to_upper (c : ascii) : ascii :=
  if is_lower c then ascii_of_nat (code c - 32) else c.

Section Matcher.

(** The [i] flag. *)
Variable ignoreCase : bool.

Definition chr_eq (a b : ascii) : bool :=
  if ignoreCase then Ascii.eqb (to_lower a) (to_lower b) else Ascii.eqb a b.

Definition between (lo hi c : ascii) : bool :=
  (code lo <=? code c)%nat && (code c <=? code hi)%nat.

Definition in_range (lo hi c : ascii) : bool :=
  if ignoreCase
  then between lo hi c || between lo hi (to_lower c) || between lo hi (to_upper c)
  else between lo hi c.

(** A backtracking matcher in continuation-passing style.  [start] tells
    that no character has been consumed yet (the only place where [^]
    holds, there being no [m] flag); [k] receives what is left.  An
    iteration of a star must consume something, as in ECMAScript, so the
    length of the input bounds the number of iterations. *)
Fixpoint run (r : regex) (start : bool) (s : list ascii)
         (k : bool -> list ascii -> bool) {struct r} : bool :=
  match r with
  | Eps => k start s
  | Bol => start && k start s
  | Eol => is_nil s && k start s
  | Chr c =>
      match s with
      | [] => false
      | x :: t => chr_eq c x && k false t
      end
  | Range lo hi =>
      match s with
      | [] => false
      | x :: t => in_range lo hi x && k false t
      end
  | Cat a b => run a start s (fun st s' => run b st s' k)
  | Alt a b => run a start s k || run b start s k
  | Star a =>
      (fix loop (fuel : nat) (st : bool) (s0 : list ascii) {struct fuel} : bool :=
         k st s0 ||
         match fuel with
         | O => false
         | S fuel' =>
             run a st s0
                 (fun st' s' => (List.length s' <? List.length s0)%nat && loop fuel' st' s')
         end) (List.length s) start s
  end.

(** [RegExp.prototype.test]: a match may begin at any position. *)
Fixpoint search (r : regex) (start : bool) (s : list ascii) : bool :=
  run r start s (fun _ _ => true)
  || match s with
     | [] => false
     | _ :: t => search r false t
     end.

Definition test (r : regex) (s : string) : bool :=
  search r true (list_ascii_of_string s).

End Matcher.

End RegExp.

Import RegExp.

(** ** The database: Store and Review documents *)

Module Db.

Definition ObjectId : Type := nat.

(** The fields of [storeSchema] that the hooks and pipelines read. *)
Record Store : Type := mkStore {
  _id : ObjectId;
  name : string;
  slug : string;
  description : string;
  tags : list string;
  photo : string;
  author : ObjectId
}.

(** A Review, with the two fields the Store model refers to: the
    back-reference [store] and the [rating]. *)
Record Review : Type := mkReview {
  review_id : ObjectId;
  store : ObjectId;
  rating : Z
}.

Record DB : Type := mkDB {
  stores : list Store;
  reviews : list Review
}.

Definition empty : DB := mkDB [] [].

Definition set_slug (s : Store) (v : string) : Store :=
  mkStore (_id s) (name s) v (description s) (tags s) (photo s) (author s).

(** Insert, or replace the document of the same [_id]. *)
Fixpoint upsert (s : Store) (l : list Store) : list Store :=
  match l with
  | [] => [s]
  | x :: t => if (_id x =? _id s)%nat then s :: t else x :: upsert s t
  end.

End Db.

Import Db.

(** ** Queries and their middleware *)

Module Query.

Local Open Scope string_scope.

Inductive Op : Type := OpFind | OpFindOne.

(** A query under construction: its operation, its filter and the paths
    to populate. *)
Record Query : Type := mkQuery {
  op : Op;
  conditions : Store -> bool;
  populated : list string
}.

(** What a read hands back: the document and, when the virtual
    [reviews] was populated, the Reviews attached to it. *)
Record Fetched : Type := mkFetched {
  fetched : Store;
  fetched_reviews : option (list Review)
}.

(** The virtual [reviews]: ref Review, localField [_id], foreignField
    [store]. *)
Definition reviews_of (db : DB) (s : Store) : list Review :=
  filter (fun r => (store r =? _id s)%nat) (reviews db).

Definition has_path (p : string) (q : Query) : bool :=
  existsb (String.eqb p) (populated q).

Definition populate (p : string) (q : Query) : Query :=
  mkQuery (op q) (conditions q) (p :: populated q).

(** [autopopulate]: [this.populate('reviews'); next()]. *)
Definition autopopulate (q : Query) : Query := populate "reviews" q.

(** [storeSchema.pre('find', ...)] and [storeSchema.pre('findOne', ...)]. *)
Definition pre (o : Op) : Query -> Query :=
  match o with
  | OpFind => autopopulate
  | OpFindOne => autopopulate
  end.

Definition attach (db : DB) (q : Query) (s : Store) : Fetched :=
  mkFetched s (if has_path "reviews" q then Some (reviews_of db s) else None).

(** Running a query once its hooks have run.  [findOne] yields the first
    match, as a list of at most one document. *)
Definition run_query (db : DB) (q : Query) : list Fetched :=
  let hits := filter (conditions q) (stores db) in
  match op q with
  | OpFind => map (attach db q) hits
  | OpFindOne => map (attach db q) (firstn 1 hits)
  end.

Definition exec (db : DB) (q : Query) : list Fetched :=
  run_query db (pre (op q) q).

(** [Model.find(conditions)] and [Model.findOne(conditions)]. *)
Definition find (db : DB) (c : Store -> bool) : list Fetched :=
  exec db (mkQuery OpFind c []).

Definition findOne (db : DB) (c : Store -> bool) : list Fetched :=
  exec db (mkQuery OpFindOne c []).

End Query.

(** ** The pre-save hook: slug assignment *)

Module SlugAssigner.

Local Open Scope string_scope.

(** A document in memory: whether it is new (never saved), and the
    paths modified since it was loaded (or created). *)
Record Document : Type := mkDocument {
  doc : Store;
  isNew : bool;
  modifiedPaths : list string
}.

Definition isModified (this : Document) (path : string) : bool :=
  existsb (String.eqb path) (modifiedPaths this).

(** Marking a path modified; a path is marked once. *)
Definition mark (path : string) (paths : list string) : list string :=
  if existsb (String.eqb path) paths then paths else path :: paths.

(** [this.slug = v]: the setter stores the value, and marks the path
    modified when the document is new or the value differs from the one
    the document has. *)
Definition assign_slug (this : Document) (v : string) : Document :=
  mkDocument
    (set_slug (doc this) v)
    (isNew this)
    (if isNew this || negb (String.eqb v (slug (doc this)))
     then mark "slug" (modifiedPaths this)
     else modifiedPaths this).

Definition decimal (n : nat) : string :=
  NilEmpty.string_of_uint (Nat.to_uint n).

(** [new RegExp(`^(${this.slug})((-[0-9]*$)?)$`, 'i')], the base being a
    slug and so free of metacharacters. *)
Definition slugRegEx (base : string) : regex :=
  Cat Bol
      (Cat (lit (list_ascii_of_string base))
           (Cat (Opt (Cat (Chr "-") (Cat (Star (Range "0" "9")) Eol)))
                Eol)).

(** The filter [{ slug: slugRegEx }]. *)
Definition slug_filter (base : string) (s : Store) : bool :=
  test true (slugRegEx base) (slug s).

Definition storesWithSlug (db : DB) (base : string) : list Query.Fetched :=
  Query.find db (slug_filter base).

Definition pre_save (db : DB) (this : Document) : Document :=
  if negb (isModified this "name") then this
  else
    let this1 := assign_slug this (Slug.slug (name (doc this))) in
    let found := storesWithSlug db (slug (doc this1)) in
    if negb (List.length found =? 0)%nat
    then assign_slug this1
                     (slug (doc this1) ++ "-" ++ decimal (List.length found + 1))
    else this1.

(** [save]: the hook runs, then the document is written; what comes back
    is no longer new and has no modified path. *)
Definition save (db : DB) (this : Document) : DB * Document :=
  let d := pre_save db this in
  (mkDB (upsert (doc d) (stores db)) (reviews db), mkDocument (doc d) false []).

(** A new Store, all of whose set paths count as modified. *)
Definition create (db : DB) (s : Store) : DB * Document :=
  save db (mkDocument s true ["name"; "description"; "tags"; "photo"; "author"]).

(** [this.name = n] on a document: the schema's [trim] setter runs, then
    the path is marked modified when the document is new or the trimmed
    value differs from the name the document has. *)
Definition rename (this : Document) (n : string) : Document :=
  let s := doc this in
  let v := JsString.trim n in
  mkDocument
    (mkStore (_id s) v (slug s) (description s) (tags s) (photo s) (author s))
    (isNew this)
    (if isNew this || negb (String.eqb v (name s))
     then mark "name" (modifiedPaths this)
     else modifiedPaths this).

End SlugAssigner.

(** ** The slug pattern, in words *)

Module SlugPattern.

(** What is left of [s] behind [base], letter case ignored. *)
Fixpoint after_prefix_ci (base s : list ascii) : option (list ascii) :=
  match base with
  | [] => Some s
  | b :: bt =>
      match s with
      | [] => None
      | c :: t =>
          if Ascii.eqb (to_lower b) (to_lower c) then after_prefix_ci bt t
          else None
      end
  end.

(** Nothing, or a dash and zero or more digits: what the source's
    [((-[0-9]*$)?)$] accepts behind the base. *)
Definition dash_digits (l : list ascii) : bool :=
  match l with
  | [] => true
  | c :: t => is_dash c && forallb is_digit t
  end.

(** Nothing, or a dash and one or more digits: the spec's
    [((-[0-9]+)?)$]. *)
Definition dash_number (l : list ascii) : bool :=
  match l with
  | [] => true
  | c :: t => is_dash c && negb (is_nil t) && forallb is_digit t
  end.

Definition behind_base (suffix : list ascii -> bool) (base s : string) : bool :=
  match after_prefix_ci (list_ascii_of_string base) (list_ascii_of_string s) with
  | Some r => suffix r
  | None => false
  end.

(** The base itself, or the base with a dash and zero or more digits. *)
Definition base_or_dashed (base s : string) : bool := behind_base dash_digits base s.

(** The base itself, or the base with a numeric suffix, as the spec has it. *)
Definition base_or_numbered (base s : string) : bool := behind_base dash_number base s.

(** The query of the spec: the pattern with [+], the Store being saved
    left out. *)
Definition spec_query (db : DB) (this : Store) (base : string) : list Store :=
  filter (fun s => negb (_id s =? _id this)%nat && base_or_numbered base (slug s))
         (stores db).

End SlugPattern.

(** ** The aggregation pipelines *)

Module Aggregate.

Local Open Scope string_scope.

(** Sorting on a key, highest first.  [before x y] tells that [x] ranks
    strictly above [y]; equal keys keep their order. *)
Section Sort.

Variable A : Type.
Variable before : A -> A -> bool.

Fixpoint insert_desc (x : A) (l : list A) : list A :=
  match l with
  | [] => [x]
  | h :: t => if before h x then h :: insert_desc x t else x :: h :: t
  end.

Definition sort_desc (l : list A) : list A :=
  fold_right insert_desc [] l.

End Sort.

(** *** getTagsList *)

(** [{ $unwind: '$tags' }]: one row per Store and tag. *)
Definition unwind_tags (l : list Store) : list (Store * string) :=
  flat_map (fun s => map (fun t => (s, t)) (tags s)) l.

Record TagGroup : Type := mkTagGroup {
  tag : string;        (* the group's _id *)
  count : nat
}.

(** One more row for tag [t]: its group counts one more, or is opened. *)
Fixpoint add_row (t : string) (gs : list TagGroup) : list TagGroup :=
  match gs with
  | [] => [mkTagGroup t 1]
  | g :: r =>
      if String.eqb (tag g) t then mkTagGroup t (S (count g)) :: r
      else g :: add_row t r
  end.

(** [{ $group: { _id: '$tags', count: { $sum: 1 } } }], the groups in
    the order in which their tags first appear. *)
Definition group_tags (rows : list (Store * string)) : list TagGroup :=
  fold_left (fun gs row => add_row (snd row) gs) rows [].

(** The count on record for tag [t], 0 when it has no group. *)
Fixpoint count_of (t : string) (gs : list TagGroup) : nat :=
  match gs with
  | [] => 0
  | g :: r => if String.eqb (tag g) t then count g else count_of t r
  end.

Definition more_rows (g h : TagGroup) : bool := (count h <? count g)%nat.

(** [{ $sort: { count: -1 } }] *)
Definition sort_count (gs : list TagGroup) : list TagGroup :=
  sort_desc more_rows gs.

Definition getTagsList (db : DB) : list TagGroup :=
  sort_count (group_tags (unwind_tags (stores db))).

(** How often tag [t] is listed, all Stores taken together. *)
Definition occurrences (t : string) (l : list Store) : nat :=
  count_occ string_dec (flat_map tags l) t.

Definition has_tag (t : string) (s : Store) : bool :=
  existsb (String.eqb t) (tags s).

(** How many Stores list tag [t]. *)
Definition referencing (t : string) (l : list Store) : nat :=
  List.length (filter (has_tag t) l).

(** *** getTopStores *)

(** A Store after [$lookup], its Reviews under [reviews]. *)
Record Joined : Type := mkJoined {
  root : Store;
  joined_reviews : list Review
}.

(** [{ $lookup: { from: 'reviews', localField: '_id',
                  foreignField: 'store', as: 'reviews' } }] *)
Definition lookup_reviews (db : DB) : list Joined :=
  map (fun s => mkJoined s (filter (fun r => (store r =? _id s)%nat) (reviews db)))
      (stores db).

(** [{ $match: { 'reviews.1': { $exists: true } } }] *)
Definition has_second_review (j : Joined) : bool :=
  match nth_error (joined_reviews j) 1 with
  | Some _ => true
  | None => false
  end.

Definition sum_ratings (l : list Review) : Z :=
  fold_right (fun r acc => (rating r + acc)%Z) 0%Z l.

(** [$avg]: the mean, and [null] over an empty list. *)
Definition avg (l : list Review) : option Q :=
  match l with
  | [] => None
  | _ :: _ => Some (inject_Z (sum_ratings l) / inject_Z (Z.of_nat (List.length l)))%Q
  end.

Record TopStore : Type := mkTopStore {
  top_id : ObjectId;
  top_photo : string;
  top_name : string;
  top_reviews : list Review;
  top_slug : string;
  averageRating : option Q
}.

(** The [$project] stage. *)
Definition project (j : Joined) : TopStore :=
  mkTopStore (_id (root j)) (photo (root j)) (name (root j))
             (joined_reviews j) (slug (root j)) (avg (joined_reviews j)).

Definition Qlt_bool (a b : Q) : bool := negb (Qle_bool b a).

(** The order of [$sort] on a numeric field: [null] below every number. *)
Definition rating_above (a b : option Q) : bool :=
  match a, b with
  | Some x, Some y => Qlt_bool y x
  | Some _, None => true
  | None, _ => false
  end.

(** [a] is at least [b], in that order. *)
Definition rating_geq (a b : option Q) : Prop :=
  match a, b with
  | Some x, Some y => (y <= x)%Q
  | _, None => True
  | None, Some _ => False
  end.

Definition better (x y : TopStore) : bool :=
  rating_above (averageRating x) (averageRating y).

Definition by_rating (x y : TopStore) : Prop :=
  rating_geq (averageRating x) (averageRating y).

Definition getTopStores (db : DB) : list TopStore :=
  firstn 10
    (sort_desc better
       (map project (filter has_second_review (lookup_reviews db)))).

End Aggregate.

(** ** The mail handler *)

Module Mail.

Local Open Scope string_scope.

Record User : Type := mkUser { email : string }.

(** The [options] object of [send]: the fields it reads, and whatever
    else the caller put there. *)
Record Options : Type := mkOptions {
  filename : string;
  user : option User;
  subject : string;
  others : list (string * string)
}.

Record MailOptions : Type := mkMailOptions {
  mail_from : string;
  mail_to : string;
  mail_subject : string;
  mail_html : string;
  mail_text : string
}.

Section Handler.

(** The collaborators: [__dirname], [pug.renderFile] (which throws when
    the template is missing), [juice], [htmlToText.fromString] and the
    promisified [transport.sendMail]. *)
Variable dirname : string.
Variable renderFile : string -> Options -> option string.
Variable juice : string -> string.
Variable fromString : string -> string.
Variable Receipt : Type.
Variable sendMail : MailOptions -> Receipt.

Definition generateHTML (file : string) (options : Options) : option string :=
  match renderFile (dirname ++ "/../views/email/" ++ file ++ ".pug") options with
  | Some html => Some (juice html)
  | None => None
  end.

(** The [mailOptions] that [send] builds; [None] when rendering throws
    or [options.user] is missing. *)
Definition mailOptions (options : Options) : option MailOptions :=
  match generateHTML (filename options) options with
  | None => None
  | Some html =>
      let text := fromString html in
      match user options with
      | None => None
      | Some u =>
          Some (mkMailOptions "Bill Schupp <noreply@bill.com>"
                              (email u) (subject options) html text)
      end
  end.

Definition send (options : Options) : option Receipt :=
  match mailOptions options with
  | Some m => Some (sendMail m)
  | None => None
  end.

End Handler.

End Mail.

(** ** Sample data *)

Module Samples.

Local Open Scope string_scope.

Definition new_store (i : ObjectId) (n : string) (tg : list string) : Store :=
  mkStore i n "" "" tg "" 0%nat.

Definition new_doc (i : ObjectId) (n : string) : SlugAssigner.Document :=
  SlugAssigner.mkDocument (new_store i n []) true ["name"].

(** A collection that holds one Store, named ["Wes"] with slug ["wes"]. *)
Definition wes : Store := mkStore 1%nat "Wes" "wes" "" [] "" 0%nat.

Definition db_wes : DB := mkDB [wes] [].

(** A collection that holds one Store, its slug ["wes-"]. *)
Definition db_dashed : DB :=
  mkDB [mkStore 1%nat "Wes" "wes-" "" [] "" 0%nat] [].

(** The collection after a first Store, named ["Wes 2"], was created. *)
Definition db_wes2 : DB :=
  fst (SlugAssigner.create Db.empty (new_store 1%nat "Wes 2" [])).

(** The collection after two Stores named ["Clean Eating"] were created. *)
Definition db_clean : DB :=
  fst (SlugAssigner.create
         (fst (SlugAssigner.create Db.empty (new_store 1%nat "Clean Eating" [])))
         (new_store 2%nat "Clean Eating" [])).

(** Two Stores, tagged [a; b] and [b]. *)
Definition db_tags : DB :=
  mkDB [new_store 1%nat "One" ["a"; "b"]; new_store 2%nat "Two" ["b"]] [].

(** One Store that lists the tag [a] twice. *)
Definition db_twice : DB :=
  mkDB [new_store 1%nat "One" ["a"; "a"]] [].

(** Store X with ratings 4 and 5, Store Y with 3, 3 and 3, Store Z with
    a single review. *)
Definition db_rated : DB :=
  mkDB [new_store 1%nat "Y" []; new_store 2%nat "X" []; new_store 3%nat "Z" []]
       [mkReview 1%nat 1%nat 3%Z; mkReview 2%nat 2%nat 4%Z; mkReview 3%nat 1%nat 3%Z;
        mkReview 4%nat 2%nat 5%Z; mkReview 5%nat 1%nat 3%Z; mkReview 6%nat 3%nat 5%Z].

(** A caller's [options] that carries a [from] of its own. *)
Definition mail_options : Mail.Options :=
  Mail.mkOptions "password-reset" (Some (Mail.mkUser "randy@example.com"))
                 "Password Reset" [("from", "Someone Else <else@example.com>")].

(** Stand-ins for the collaborators of the mail handler. *)
Definition sample_renderFile (path : string) (o : Mail.Options) : option string :=
  Some ("<p>" ++ Mail.subject o ++ "</p>").

Definition sample_juice (html : string) : string := html.

Definition sample_fromString (html : string) : string := "text".

End Samples.

(** ** Further notions: sequences of saves, totals, the schema's paths *)

Module Sequences.

Local Open Scope string_scope.

(** The slug the hook assigns when its query finds [n] Stores. *)
Definition slug_for_count (base : string) (n : nat) : string :=
  match n with
  | O => base
  | S _ => base ++ "-" ++ SlugAssigner.decimal (n + 1)
  end.

(** Creating Stores one after the other; the slugs they get, in order. *)
Fixpoint create_all (db : DB) (l : list Store) : DB * list string :=
  match l with
  | [] => (db, [])
  | s :: t =>
      let r := SlugAssigner.create db s in
      let r' := create_all (fst r) t in
      (fst r', slug (SlugAssigner.doc (snd r)) :: snd r')
  end.

End Sequences.

Module Totals.

(** The counts of all groups, added up. *)
Definition total_count (gs : list Aggregate.TagGroup) : nat :=
  fold_right (fun g n => (Aggregate.count g + n)%nat) 0%nat gs.

(** [r] refers to a Store of [l]. *)
Definition references_some (l : list Store) (r : Review) : bool :=
  existsb (fun s => (store r =? _id s)%nat) l.

(** The database without the Reviews that refer to no Store. *)
Definition without_orphans (db : DB) : DB :=
  mkDB (stores db) (filter (references_some (stores db)) (reviews db)).

End Totals.

(** The [name] path of [storeSchema]:
    [{ type: String, trim: true, required: 'Please enter a store name!' }]. *)
Module Schema.

Local Open Scope string_scope.

(** The setter that [trim: true] installs: [String.prototype.trim]. *)
Definition trim_setter (v : string) : string := JsString.trim v.

(** Setting the path: a missing value stays missing. *)
Definition set_name (raw : option string) : option string :=
  match raw with
  | Some v => Some (trim_setter v)
  | None => None
  end.

(** The [required] validator of a String path: the value must be a string
    of positive length.  [Some msg] is the validation error. *)
Definition required_string (msg : string) (v : option string) : option string :=
  match v with
  | Some (String _ _) => None
  | Some EmptyString => Some msg
  | None => Some msg
  end.

Definition validate_name (raw : option string) : option string :=
  required_string "Please enter a store name!" (set_name raw).

(** The characters of a string. *)
Definition characters_of (v : string) : list (list ascii) :=
  JsString.characters (list_ascii_of_string v).

End Schema.

(** * Properties *)

Unset Implicit Arguments.
Local Open Scope nat_scope.
Local Open Scope string_scope.

(** ** Facts about characters *)

Ltac by_cases_on_char c :=
  destruct c as [[] [] [] [] [] [] [] []]; vm_compute; intros; congruence.

Lemma to_lower_not_upper (c : ascii) : is_upper (to_lower c) = false.
Proof. by_cases_on_char c. Qed.

Lemma alnum_lowered_is_slug_char (c : ascii) :
  is_upper c = false -> is_alnum c = true -> is_slug_char c = true.
Proof. by_cases_on_char c. Qed.

Lemma slug_char_is_alnum (c : ascii) : is_slug_char c = true -> is_alnum c = true.
Proof. by_cases_on_char c. Qed.

Lemma dash_is_not_alnum (c : ascii) : is_dash c = true -> is_alnum c = false.
Proof. by_cases_on_char c. Qed.

Lemma ok_char_not_alnum_is_dash (c : ascii) :
  Slug.is_ok_char c = true -> is_alnum c = false -> is_dash c = true.
Proof. by_cases_on_char c. Qed.

Lemma ok_char_to_lower (c : ascii) : Slug.is_ok_char c = true -> to_lower c = c.
Proof. by_cases_on_char c. Qed.

Lemma ok_char_not_space (c : ascii) : Slug.is_ok_char c = true -> is_space c = false.
Proof. by_cases_on_char c. Qed.

Lemma is_dash_eq (c : ascii) : is_dash c = true -> c = dash.
Proof. unfold is_dash. apply Ascii.eqb_eq. Qed.

(** ** Dropping characters at either end *)

Section Drop.

Variables p q : ascii -> bool.

Lemma drop_while_forallb l : forallb q l = true -> forallb q (drop_while p l) = true.
Proof.
  induction l as [|c t IH]; simpl; auto.
  intros H. destruct (p c); simpl; auto.
  apply andb_true_iff in H. apply IH, H.
Qed.

Lemma drop_while_end_forallb l :
  forallb q l = true -> forallb q (drop_while_end p l) = true.
Proof.
  induction l as [|c t IH]; simpl; auto.
  intros H. apply andb_true_iff in H. destruct H as [Hc Ht].
  destruct (p c && is_nil (drop_while_end p t)); simpl; auto.
  rewrite Hc. simpl. auto.
Qed.

Lemma drop_while_clean l : Slug.clean_start p (drop_while p l) = true.
Proof.
  induction l as [|c t IH]; simpl; auto.
  destruct (p c) eqn:E; auto. simpl. now rewrite E.
Qed.

Lemma drop_while_end_clean l : Slug.clean_end p (drop_while_end p l) = true.
Proof.
  induction l as [|c t IH]; simpl; auto.
  destruct (drop_while_end p t) as [|x r] eqn:E; simpl.
  - rewrite andb_true_r. destruct (p c) eqn:Ec; simpl; auto. now rewrite Ec.
  - rewrite andb_false_r. simpl. exact IH.
Qed.

Lemma drop_while_id l : Slug.clean_start p l = true -> drop_while p l = l.
Proof.
  destruct l as [|c t]; simpl; auto.
  intros H. apply negb_true_iff in H. now rewrite H.
Qed.

Lemma drop_while_end_id l : Slug.clean_end p l = true -> drop_while_end p l = l.
Proof.
  induction l as [|c t IH]; simpl; auto.
  destruct t as [|x r].
  - simpl. intros H. apply negb_true_iff in H. now rewrite H.
  - intros H. rewrite (IH H). now rewrite andb_false_r.
Qed.

Lemma drop_while_single l :
  Slug.single_dashes l = true -> Slug.single_dashes (drop_while p l) = true.
Proof.
  induction l as [|c t IH]; simpl; auto.
  intros H. destruct (p c); auto.
  apply andb_true_iff in H. apply IH, H.
Qed.

Lemma drop_while_end_clean_start l :
  Slug.clean_start q l = true -> Slug.clean_start q (drop_while_end p l) = true.
Proof.
  destruct l as [|c t]; simpl; auto.
  destruct (p c && is_nil (drop_while_end p t)); simpl; auto.
Qed.

End Drop.

Lemma drop_while_end_single (p : ascii -> bool) l :
  Slug.single_dashes l = true -> Slug.single_dashes (drop_while_end p l) = true.
Proof.
  induction l as [|c t IH]; simpl; auto.
  intros H. apply andb_true_iff in H. destruct H as [Hc Ht].
  destruct (p c && is_nil (drop_while_end p t)); simpl; auto.
  rewrite (IH Ht), andb_true_r.
  destruct (is_dash c); auto.
  now apply drop_while_end_clean_start.
Qed.

(** ** The slugify transform *)

Lemma collapse_run_ok_chars b l :
  forallb (fun c => negb (is_upper c)) l = true ->
  forallb Slug.is_ok_char (Slug.collapse_run b l) = true.
Proof.
  revert b. induction l as [|c t IH]; simpl; auto.
  intros b H. apply andb_true_iff in H. destruct H as [Hc Ht].
  apply negb_true_iff in Hc.
  destruct (is_alnum c) eqn:E.
  - simpl. rewrite (IH false Ht), andb_true_r.
    unfold Slug.is_ok_char. now rewrite (alnum_lowered_is_slug_char c Hc E).
  - destruct b; simpl; auto.
Qed.

Lemma collapse_run_single b l :
  Slug.single_dashes (Slug.collapse_run b l) = true
  /\ (b = true -> Slug.clean_start is_dash (Slug.collapse_run b l) = true).
Proof.
  revert b. induction l as [|c t IH]; simpl; auto.
  intros b. destruct (is_alnum c) eqn:E.
  - simpl. destruct (IH false) as [H1 _]. rewrite H1, andb_true_r.
    split.
    + destruct (is_dash c) eqn:D; auto.
      apply dash_is_not_alnum in D. congruence.
    + intros _. destruct (is_dash c) eqn:D; auto.
      apply dash_is_not_alnum in D. congruence.
  - destruct (IH true) as [H1 H2]. destruct b; simpl.
    + split; auto.
    + split; [|discriminate]. rewrite H1, andb_true_r.
      change (is_dash dash) with true. simpl. auto.
Qed.

Lemma collapse_run_id b l :
  forallb Slug.is_ok_char l = true ->
  Slug.single_dashes l = true ->
  (b = true -> Slug.clean_start is_dash l = true) ->
  Slug.collapse_run b l = l.
Proof.
  revert b. induction l as [|c t IH]; simpl; auto.
  intros b Hok Hs Hb.
  apply andb_true_iff in Hok. destruct Hok as [Hc Ht].
  apply andb_true_iff in Hs. destruct Hs as [Hd Hs].
  destruct (is_alnum c) eqn:E.
  - f_equal. apply IH; auto. discriminate.
  - pose proof (ok_char_not_alnum_is_dash c Hc E) as D.
    rewrite D in Hd.
    destruct b.
    + specialize (Hb eq_refl). rewrite D in Hb. discriminate.
    + rewrite (is_dash_eq c D). f_equal. apply IH; auto.
Qed.

Lemma map_to_lower_not_upper l :
  forallb (fun c => negb (is_upper c)) (map to_lower l) = true.
Proof.
  induction l as [|c t IH]; simpl; auto.
  now rewrite to_lower_not_upper, IH.
Qed.

Lemma map_to_lower_id l :
  forallb Slug.is_ok_char l = true -> map to_lower l = l.
Proof.
  induction l as [|c t IH]; simpl; auto.
  intros H. apply andb_true_iff in H. destruct H as [Hc Ht].
  now rewrite (ok_char_to_lower c Hc), (IH Ht).
Qed.

Lemma ok_chars_clean_start l :
  forallb Slug.is_ok_char l = true -> Slug.clean_start is_space l = true.
Proof.
  destruct l as [|c t]; simpl; auto.
  intros H. apply andb_true_iff in H. destruct H as [Hc _].
  now rewrite (ok_char_not_space c Hc).
Qed.

Lemma ok_chars_clean_end l :
  forallb Slug.is_ok_char l = true -> Slug.clean_end is_space l = true.
Proof.
  induction l as [|c t IH]; simpl; auto.
  intros H. apply andb_true_iff in H. destruct H as [Hc Ht].
  destruct t as [|x r]; auto.
  now rewrite (ok_char_not_space c Hc).
Qed.

Lemma slug_chars_shaped l : Slug.shaped (Slug.slug_chars l) = true.
Proof.
  unfold Slug.shaped, Slug.slug_chars, Slug.strip_dashes, Slug.trim.
  set (t := drop_while_end is_space (drop_while is_space (map to_lower l))).
  assert (Ht : forallb (fun c => negb (is_upper c)) t = true).
  { apply drop_while_end_forallb, drop_while_forallb, map_to_lower_not_upper. }
  destruct (collapse_run_single false t) as [Hs _].
  repeat (apply andb_true_iff; split).
  - apply drop_while_end_forallb, drop_while_forallb.
    now apply collapse_run_ok_chars.
  - now apply drop_while_end_single, drop_while_single.
  - apply drop_while_end_clean_start, drop_while_clean.
  - apply drop_while_end_clean.
Qed.

Lemma shaped_slug_chars l : Slug.shaped l = true -> Slug.slug_chars l = l.
Proof.
  unfold Slug.shaped. intros H.
  apply andb_true_iff in H. destruct H as [H He].
  apply andb_true_iff in H. destruct H as [H Hst].
  apply andb_true_iff in H. destruct H as [Hok Hs].
  unfold Slug.slug_chars, Slug.strip_dashes, Slug.trim.
  rewrite (map_to_lower_id l Hok).
  rewrite (drop_while_id is_space l (ok_chars_clean_start l Hok)).
  rewrite (drop_while_end_id is_space l (ok_chars_clean_end l Hok)).
  rewrite (collapse_run_id false l Hok Hs) by discriminate.
  rewrite (drop_while_id is_dash l Hst).
  now apply drop_while_end_id.
Qed.

(** C9. The slugify transform is idempotent: slugifying the result of
    slugifying a string gives the same string as slugifying it once. *)
Theorem slug_idempotent (s : string) : Slug.slug (Slug.slug s) = Slug.slug s.
Proof.
  unfold Slug.slug.
  rewrite list_ascii_of_string_of_list_ascii.
  f_equal. apply shaped_slug_chars, slug_chars_shaped.
Qed.

(** ** The matcher on the slug pattern *)

Lemma chr_eq_dash (x : ascii) : chr_eq true "-" x = is_dash x.
Proof. destruct x as [[] [] [] [] [] [] [] []]; reflexivity. Qed.

Lemma in_range_digit (x : ascii) : in_range true "0" "9" x = is_digit x.
Proof. destruct x as [[] [] [] [] [] [] [] []]; reflexivity. Qed.

Lemma run_lit (b : list ascii) :
  forall st s k,
    run true (lit b) st s k =
    match SlugPattern.after_prefix_ci b s with
    | Some r => k (st && is_nil b) r
    | None => false
    end.
Proof.
  induction b as [|c bt IH]; intros st s k; simpl.
  - now rewrite andb_true_r.
  - destruct s as [|x t]; auto.
    unfold chr_eq. destruct (Ascii.eqb (to_lower c) (to_lower x)); simpl; auto.
    rewrite IH. rewrite andb_false_r. reflexivity.
Qed.

Section StarOfDigits.

Variable k : bool -> list ascii -> bool.
Hypothesis k_end : forall st s, k st s = is_nil s.

Lemma run_star_digits :
  forall s st, run true (Star (Range "0" "9")) st s k = forallb is_digit s.
Proof.
  intros s st. simpl.
  assert (G : forall n s0 st0, (List.length s0 <= n)%nat ->
    (fix loop (fuel : nat) (st1 : bool) (s1 : list ascii) {struct fuel} : bool :=
       k st1 s1 ||
       match fuel with
       | O => false
       | S fuel' =>
           match s1 with
           | [] => false
           | x :: t =>
               in_range true "0" "9" x &&
               ((List.length t <? List.length s1)%nat && loop fuel' false t)
           end
       end) n st0 s0 = forallb is_digit s0).
  { induction n as [|n IH]; intros s0 st0 Hn.
    - destruct s0; simpl in Hn; [|lia]. rewrite k_end. reflexivity.
    - destruct s0 as [|x t].
      + rewrite k_end. reflexivity.
      + rewrite k_end. cbn [is_nil orb forallb].
        rewrite in_range_digit. f_equal.
        rewrite IH by (simpl in Hn; lia).
        replace (List.length t <? List.length (x :: t))%nat with true; auto.
        symmetry. apply Nat.ltb_lt. simpl. lia. }
  apply G. lia.
Qed.

End StarOfDigits.

Lemma search_bol_later (r : regex) (s : list ascii) :
  search true (Cat Bol r) false s = false.
Proof. induction s as [|c t IH]; simpl; auto. Qed.

(** The source's pattern accepts the base, or the base with a dash and
    zero or more digits behind it, whatever the letter case. *)
Lemma slug_filter_in_words (base : string) (s : Store) :
  SlugAssigner.slug_filter base s = SlugPattern.base_or_dashed base (slug s).
Proof.
  unfold SlugAssigner.slug_filter, test, SlugAssigner.slugRegEx.
  unfold SlugPattern.base_or_dashed, SlugPattern.behind_base.
  set (b := list_ascii_of_string base).
  set (l := list_ascii_of_string (slug s)).
  assert (E : forall x, search true (Cat Bol x) true l
                        = run true x true l (fun _ _ => true)).
  { intros x. destruct l as [|c t]; simpl.
    - now rewrite orb_false_r.
    - rewrite search_bol_later. now rewrite orb_false_r. }
  rewrite E. clear E.
  cbn [run]. rewrite run_lit.
  destruct (SlugPattern.after_prefix_ci b l) as [r|]; auto.
  unfold Opt. cbn [run].
  destruct r as [|x t]; [reflexivity|].
  cbn [run is_nil andb].
  rewrite chr_eq_dash.
  pose proof (run_star_digits (fun _ s' => is_nil s' && (is_nil s' && true))) as R.
  cbn [run] in R. rewrite R.
  - now rewrite orb_false_r.
  - intros st0 s0. destruct s0; reflexivity.
Qed.

(** ** The slug query *)

Lemma find_fetched (db : DB) (c : Store -> bool) :
  map Query.fetched (Query.find db c) = filter c (stores db).
Proof.
  unfold Query.find, Query.exec, Query.run_query. simpl.
  rewrite map_map. simpl. apply map_id.
Qed.

Lemma storesWithSlug_fetched (db : DB) (base : string) :
  map Query.fetched (SlugAssigner.storesWithSlug db base)
  = filter (fun s => SlugPattern.base_or_dashed base (slug s)) (stores db).
Proof.
  unfold SlugAssigner.storesWithSlug. rewrite find_fetched.
  apply filter_ext. intros s. apply slug_filter_in_words.
Qed.

Lemma storesWithSlug_length (db : DB) (base : string) :
  List.length (SlugAssigner.storesWithSlug db base)
  = List.length (filter (fun s => SlugPattern.base_or_dashed base (slug s)) (stores db)).
Proof. now rewrite <- storesWithSlug_fetched, length_map. Qed.

(** C3, on the code.  The query of the source returns a Store whose slug
    is the base followed by a bare dash, which the pattern
    [^(base)((-[0-9]+)?)$] does not accept; and it returns the Store that
    is being saved when that Store is in the collection already, as for
    the Store named ["Wes"] that is renamed ["WES"].  The query of the
    spec returns neither. *)
Theorem slug_query_bare_dash_and_self :
  map Query.fetched
      (SlugAssigner.storesWithSlug Samples.db_dashed (Slug.slug "Wes"))
  = stores Samples.db_dashed
  /\ map slug (stores Samples.db_dashed) = ["wes-"]
  /\ SlugPattern.spec_query Samples.db_dashed (Samples.new_store 2 "Wes" [])
                            (Slug.slug "Wes") = []
  /\ map Query.fetched
         (SlugAssigner.storesWithSlug Samples.db_wes (Slug.slug "WES"))
     = [Samples.wes]
  /\ SlugPattern.spec_query Samples.db_wes Samples.wes (Slug.slug "WES") = [].
Proof. repeat split. Qed.

(** ** The pre-save hook *)

Section Hook.

Local Open Scope string_scope.

Variable db : DB.
Variable this : SlugAssigner.Document.

Let base : string := Slug.slug (name (SlugAssigner.doc this)).
Let found : list Query.Fetched := SlugAssigner.storesWithSlug db base.

Lemma pre_save_modified :
  SlugAssigner.isModified this "name" = true ->
  slug (SlugAssigner.doc (SlugAssigner.pre_save db this))
  = match List.length found with
    | O => base
    | S _ => base ++ "-" ++ SlugAssigner.decimal (List.length found + 1)
    end.
Proof.
  intros H. unfold SlugAssigner.pre_save. rewrite H. simpl.
  fold base. fold found.
  destruct (List.length found); reflexivity.
Qed.

Lemma pre_save_unmodified :
  SlugAssigner.isModified this "name" = false ->
  SlugAssigner.pre_save db this = this.
Proof. intros H. unfold SlugAssigner.pre_save. now rewrite H. Qed.

End Hook.

(** C6. When the name was not modified, the hook leaves the document as
    it is, whatever other paths were modified, and the slug that is
    written is the slug the document had. *)
Theorem slug_kept_when_name_unmodified (db : DB) (this : SlugAssigner.Document) :
  SlugAssigner.isModified this "name" = false ->
  SlugAssigner.pre_save db this = this
  /\ slug (SlugAssigner.doc (snd (SlugAssigner.save db this)))
     = slug (SlugAssigner.doc this).
Proof.
  intros H. unfold SlugAssigner.save. simpl.
  rewrite (pre_save_unmodified db this H). auto.
Qed.

Lemma slug_kept_when_name_unmodified_witness :
  SlugAssigner.isModified
    (SlugAssigner.mkDocument
       (mkStore 1 "Clean Eating" "clean-eating" "vegan" [] "" 0)
       false ["description"; "tags"]) "name" = false
  /\ slug (SlugAssigner.doc
             (snd (SlugAssigner.save
                     Samples.db_clean
                     (SlugAssigner.mkDocument
                        (mkStore 1 "Clean Eating" "clean-eating" "vegan" [] "" 0)
                        false ["description"; "tags"]))))
     = "clean-eating"%string.
Proof.
  split; [reflexivity|].
  apply (slug_kept_when_name_unmodified Samples.db_clean
           (SlugAssigner.mkDocument
              (mkStore 1 "Clean Eating" "clean-eating" "vegan" [] "" 0)
              false ["description"; "tags"])).
  reflexivity.
Defined.

(** ** Decimal numerals and string lemmas *)

Lemma string_of_uint_digits (d : Decimal.uint) :
  forallb is_digit (list_ascii_of_string (NilEmpty.string_of_uint d)) = true.
Proof. induction d; simpl; auto. Qed.

Lemma decimal_digits (n : nat) :
  forallb is_digit (list_ascii_of_string (SlugAssigner.decimal n)) = true.
Proof. apply string_of_uint_digits. Qed.

Lemma decimal_inj (n m : nat) :
  SlugAssigner.decimal n = SlugAssigner.decimal m -> n = m.
Proof.
  unfold SlugAssigner.decimal. intros H.
  apply DecimalNat.Unsigned.to_uint_inj.
  assert (E : Some (Nat.to_uint n) = Some (Nat.to_uint m)).
  { rewrite <- (NilEmpty.usu (Nat.to_uint n)), <- (NilEmpty.usu (Nat.to_uint m)).
    now rewrite H. }
  now inversion E.
Qed.

Lemma chars_append (a b : string) :
  list_ascii_of_string (a ++ b)
  = (list_ascii_of_string a ++ list_ascii_of_string b)%list.
Proof. induction a as [|c a IH]; simpl; [reflexivity | now rewrite IH]. Qed.

Lemma append_cancel_l (a b c : string) : (a ++ b = a ++ c)%string -> b = c.
Proof.
  induction a as [|x a IH]; simpl; auto.
  intros H. inversion H. auto.
Qed.

Lemma append_nonempty_r (a : string) (c : ascii) (b : string) :
  (a ++ String c b)%string <> a.
Proof.
  induction a as [|x a IH]; simpl.
  - discriminate.
  - intros H. inversion H. auto.
Qed.

Lemma after_prefix_ci_app (l r : list ascii) :
  SlugPattern.after_prefix_ci l (l ++ r) = Some r.
Proof.
  induction l as [|c t IH]; simpl; auto.
  now rewrite Ascii.eqb_refl.
Qed.

Lemma base_matches_itself (base : string) :
  SlugPattern.base_or_dashed base base = true.
Proof.
  unfold SlugPattern.base_or_dashed, SlugPattern.behind_base.
  rewrite <- (app_nil_r (list_ascii_of_string base)) at 2.
  now rewrite after_prefix_ci_app.
Qed.

Lemma numbered_matches_base (base : string) (n : nat) :
  SlugPattern.base_or_dashed base (base ++ "-" ++ SlugAssigner.decimal n)%string = true.
Proof.
  unfold SlugPattern.base_or_dashed, SlugPattern.behind_base.
  rewrite chars_append, after_prefix_ci_app. simpl.
  apply decimal_digits.
Qed.

(** ** Saving one Store after another *)

Lemma upsert_new (x : Store) (l : list Store) :
  (forall s, In s l -> _id s <> _id x) -> upsert x l = (l ++ [x])%list.
Proof.
  induction l as [|y t IH]; simpl; auto.
  intros H.
  assert (E : (_id y =? _id x)%nat = false) by (apply Nat.eqb_neq, H; now left).
  rewrite E. f_equal. apply IH. intros s Hs. apply H. now right.
Qed.


Lemma create_modifies_name (s : Store) :
  SlugAssigner.isModified
    (SlugAssigner.mkDocument s true ["name"; "description"; "tags"; "photo"; "author"])
    "name" = true.
Proof. reflexivity. Qed.

Lemma created_slug (db : DB) (s : Store) :
  slug (SlugAssigner.doc (snd (SlugAssigner.create db s)))
  = match List.length (SlugAssigner.storesWithSlug db (Slug.slug (name s))) with
    | O => Slug.slug (name s)
    | S _ =>
        Slug.slug (name s) ++ "-"
        ++ SlugAssigner.decimal
             (List.length (SlugAssigner.storesWithSlug db (Slug.slug (name s))) + 1)
    end.
Proof.
  unfold SlugAssigner.create, SlugAssigner.save. cbn [snd SlugAssigner.doc].
  now rewrite pre_save_modified by apply create_modifies_name.
Qed.

Lemma created_stores (db : DB) (s : Store) :
  stores (fst (SlugAssigner.create db s))
  = upsert (SlugAssigner.doc (snd (SlugAssigner.create db s))) (stores db).
Proof. reflexivity. Qed.

Lemma created_id (db : DB) (s : Store) :
  _id (SlugAssigner.doc (snd (SlugAssigner.create db s))) = _id s.
Proof.
  unfold SlugAssigner.create, SlugAssigner.save, SlugAssigner.pre_save.
  cbn [snd SlugAssigner.doc].
  rewrite create_modifies_name. cbn [negb].
  destruct (negb _); reflexivity.
Qed.

Lemma created_slug_matches (db : DB) (s : Store) :
  SlugPattern.base_or_dashed
    (Slug.slug (name s))
    (slug (SlugAssigner.doc (snd (SlugAssigner.create db s)))) = true.
Proof.
  rewrite created_slug.
  destruct (List.length _).
  - apply base_matches_itself.
  - apply numbered_matches_base.
Qed.



(** ** Empty and non-empty slugs *)

Lemma to_lower_alnum (c : ascii) : is_alnum (to_lower c) = is_alnum c.
Proof. destruct c as [[] [] [] [] [] [] [] []]; reflexivity. Qed.

Lemma space_is_not_alnum (c : ascii) : is_space c = true -> is_alnum c = false.
Proof. by_cases_on_char c. Qed.

Lemma existsb_alnum_lower l :
  existsb is_alnum (map to_lower l) = existsb is_alnum l.
Proof.
  induction l as [|c t IH]; simpl; auto.
  now rewrite to_lower_alnum, IH.
Qed.

Section DropKeepsAlnum.

Variable p : ascii -> bool.
Hypothesis p_not_alnum : forall c, p c = true -> is_alnum c = false.

Lemma existsb_alnum_drop_while l :
  existsb is_alnum (drop_while p l) = existsb is_alnum l.
Proof.
  induction l as [|c t IH]; simpl; auto.
  destruct (p c) eqn:E; simpl; auto.
  now rewrite (p_not_alnum c E), IH.
Qed.

Lemma existsb_alnum_drop_while_end l :
  existsb is_alnum (drop_while_end p l) = existsb is_alnum l.
Proof.
  induction l as [|c t IH]; simpl; auto.
  rewrite <- IH.
  destruct (p c) eqn:E; simpl; auto.
  destruct (drop_while_end p t); simpl; auto.
  now rewrite (p_not_alnum c E).
Qed.

End DropKeepsAlnum.

Lemma existsb_alnum_collapse b l :
  existsb is_alnum (Slug.collapse_run b l) = existsb is_alnum l.
Proof.
  revert b. induction l as [|c t IH]; intros b; simpl; auto.
  destruct (is_alnum c) eqn:E; simpl.
  - now rewrite E.
  - destruct b; simpl; apply IH.
Qed.

Lemma existsb_alnum_slug_chars l :
  existsb is_alnum (Slug.slug_chars l) = existsb is_alnum l.
Proof.
  unfold Slug.slug_chars, Slug.strip_dashes, Slug.trim.
  rewrite (existsb_alnum_drop_while_end is_dash dash_is_not_alnum).
  rewrite (existsb_alnum_drop_while is_dash dash_is_not_alnum).
  rewrite existsb_alnum_collapse.
  rewrite (existsb_alnum_drop_while_end is_space space_is_not_alnum).
  rewrite (existsb_alnum_drop_while is_space space_is_not_alnum).
  apply existsb_alnum_lower.
Qed.

Lemma slug_of_alnum_nonempty (n : string) :
  existsb is_alnum (list_ascii_of_string n) = true -> Slug.slug n <> "".
Proof.
  intros H E. unfold Slug.slug in E.
  rewrite <- existsb_alnum_slug_chars in H.
  destruct (Slug.slug_chars (list_ascii_of_string n)); simpl in *; discriminate.
Qed.

(** C7, as the code has it.  When the name holds at least one ASCII
    letter or digit ([A-Z], [a-z], [0-9]), the slug that the hook assigns
    is not empty. *)
Theorem assigned_slug_nonempty (db : DB) (this : SlugAssigner.Document) :
  SlugAssigner.isModified this "name" = true ->
  existsb is_alnum (list_ascii_of_string (name (SlugAssigner.doc this))) = true ->
  slug (SlugAssigner.doc (SlugAssigner.pre_save db this)) <> "".
Proof.
  intros Hm Ha. rewrite pre_save_modified by exact Hm.
  destruct (List.length _).
  - now apply slug_of_alnum_nonempty.
  - destruct (Slug.slug (name (SlugAssigner.doc this))); discriminate.
Qed.

Lemma assigned_slug_nonempty_witness :
  SlugAssigner.isModified (Samples.new_doc 3 "Clean Eating") "name" = true
  /\ slug (SlugAssigner.doc
             (SlugAssigner.pre_save Samples.db_clean (Samples.new_doc 3 "Clean Eating")))
     <> "".
Proof.
  split; [reflexivity|].
  apply (assigned_slug_nonempty Samples.db_clean (Samples.new_doc 3 "Clean Eating"));
    reflexivity.
Defined.

(** C7, as the spec words it, fails: the name ["!"] is not empty, and the
    slug assigned to a Store of that name in an empty collection is. *)
Lemma empty_slug_of_nonempty_name :
  name (SlugAssigner.doc (Samples.new_doc 1 "!")) <> ""
  /\ SlugAssigner.isModified (Samples.new_doc 1 "!") "name" = true
  /\ slug (SlugAssigner.doc (SlugAssigner.pre_save Db.empty (Samples.new_doc 1 "!"))) = "".
Proof. repeat split. discriminate. Qed.

(** C1, on the code.  A Store named ["Wes 2"] is created in an empty
    collection, then a Store named ["Wes"]: the hook gives the second the
    slug ["wes-2"], which the first already has. *)
Theorem slug_collision_of_two_creations :
  map (fun s => (_id s, slug s)) (stores Samples.db_wes2) = [(1, "wes-2")]
  /\ slug (SlugAssigner.doc
             (snd (SlugAssigner.create Samples.db_wes2 (Samples.new_store 2 "Wes" []))))
     = "wes-2"
  /\ map (fun s => (_id s, slug s))
         (stores (fst (SlugAssigner.create Samples.db_wes2 (Samples.new_store 2 "Wes" []))))
     = [(1, "wes-2"); (2, "wes-2")].
Proof. repeat split. Qed.

(** ** Sorting, highest first *)

Section SortFacts.

Variable A : Type.
Variable before : A -> A -> bool.
Variable R : A -> A -> Prop.

Hypothesis before_true : forall x y, before x y = true -> R x y.
Hypothesis before_false : forall x y, before x y = false -> R y x.

Lemma insert_desc_perm (x : A) (l : list A) :
  Permutation (Aggregate.insert_desc before x l) (x :: l).
Proof.
  induction l as [|h t IH]; simpl; auto.
  destruct (before h x); auto.
  rewrite IH. apply perm_swap.
Qed.

Lemma sort_desc_perm (l : list A) : Permutation (Aggregate.sort_desc before l) l.
Proof.
  induction l as [|h t IH]; simpl; auto.
  rewrite insert_desc_perm. now constructor.
Qed.

Lemma insert_desc_hd (a x : A) (l : list A) :
  R a x -> HdRel R a l -> HdRel R a (Aggregate.insert_desc before x l).
Proof.
  intros Hx Hl. destruct l as [|h t]; simpl.
  - now constructor.
  - inversion Hl; subst. destruct (before h x); now constructor.
Qed.

Lemma insert_desc_sorted (x : A) (l : list A) :
  Sorted R l -> Sorted R (Aggregate.insert_desc before x l).
Proof.
  induction l as [|h t IH]; simpl; intros Hs.
  - repeat constructor.
  - inversion Hs; subst.
    destruct (before h x) eqn:E.
    + constructor; [now apply IH | apply insert_desc_hd; auto].
    + constructor; [exact Hs | constructor; now apply before_false].
Qed.

Lemma sort_desc_sorted (l : list A) : Sorted R (Aggregate.sort_desc before l).
Proof.
  induction l as [|h t IH]; simpl.
  - constructor.
  - now apply insert_desc_sorted.
Qed.

Lemma strongly_sorted_firstn (n : nat) (l : list A) :
  StronglySorted R l -> StronglySorted R (firstn n l).
Proof.
  revert l. induction n as [|n IH]; intros l Hs; simpl.
  - constructor.
  - destruct l as [|h t]; [constructor|].
    inversion Hs; subst. constructor; auto.
    rewrite Forall_forall in *. intros y Hy. apply H2.
    rewrite <- (firstn_skipn n t). apply in_or_app. now left.
Qed.

Lemma strongly_sorted_app (l1 l2 : list A) :
  StronglySorted R (l1 ++ l2)%list ->
  forall x y, In x l1 -> In y l2 -> R x y.
Proof.
  induction l1 as [|h t IH]; simpl; intros Hs x y Hx Hy; [contradiction|].
  inversion Hs; subst. destruct Hx as [<-|Hx].
  - rewrite Forall_forall in H2. apply H2, in_or_app. now right.
  - now apply IH.
Qed.

End SortFacts.

(** ** getTagsList *)

Import Aggregate.

Lemma add_row_count_of (t t' : string) (gs : list TagGroup) :
  count_of t' (add_row t gs)
  = count_of t' gs + (if String.eqb t t' then 1 else 0).
Proof.
  induction gs as [|g r IH]; simpl.
  - reflexivity.
  - destruct (String.eqb (tag g) t) eqn:E; simpl.
    + apply String.eqb_eq in E. rewrite E.
      destruct (String.eqb t t'); lia.
    + destruct (String.eqb (tag g) t') eqn:E'; auto.
      apply String.eqb_eq in E'. subst t'.
      rewrite String.eqb_sym, E. lia.
Qed.

Lemma add_row_tags_old (t : string) (gs : list TagGroup) :
  In t (map tag gs) -> map tag (add_row t gs) = map tag gs.
Proof.
  induction gs as [|g r IH]; simpl; [contradiction|].
  intros H. destruct (String.eqb (tag g) t) eqn:E; simpl.
  - apply String.eqb_eq in E. now rewrite E.
  - f_equal. apply IH. destruct H as [H|H]; auto.
    apply String.eqb_neq in E. contradiction.
Qed.

Lemma add_row_tags_new (t : string) (gs : list TagGroup) :
  ~ In t (map tag gs) -> map tag (add_row t gs) = (map tag gs ++ [t])%list.
Proof.
  induction gs as [|g r IH]; simpl; auto.
  intros H. destruct (String.eqb (tag g) t) eqn:E; simpl.
  - apply String.eqb_eq in E. tauto.
  - f_equal. apply IH. tauto.
Qed.

Lemma add_row_nodup (t : string) (gs : list TagGroup) :
  NoDup (map tag gs) -> NoDup (map tag (add_row t gs)).
Proof.
  intros H. destruct (in_dec string_dec t (map tag gs)) as [Hin|Hout].
  - now rewrite add_row_tags_old.
  - rewrite add_row_tags_new by assumption.
    apply NoDup_app; auto.
    + repeat constructor. intros [].
    + intros a Ha [<-|[]]. contradiction.
Qed.

Lemma add_row_in (t t' : string) (gs : list TagGroup) :
  In t' (map tag (add_row t gs)) <-> t' = t \/ In t' (map tag gs).
Proof.
  destruct (in_dec string_dec t (map tag gs)) as [Hin|Hout].
  - rewrite add_row_tags_old by assumption.
    split; auto. intros [->|H]; auto.
  - rewrite add_row_tags_new by assumption.
    rewrite in_app_iff. simpl. intuition.
Qed.

Section Grouping.

Variable rows : list (Store * string).

Lemma group_from_count_of (t : string) :
  forall gs,
    count_of t (fold_left (fun gs row => add_row (snd row) gs) rows gs)
    = count_of t gs + count_occ string_dec (map snd rows) t.
Proof.
  induction rows as [|row rest IH]; intros gs; simpl.
  - lia.
  - rewrite IH, add_row_count_of.
    destruct (string_dec (snd row) t) as [->|Hne].
    + rewrite String.eqb_refl. lia.
    + apply String.eqb_neq in Hne. rewrite Hne. lia.
Qed.

Lemma group_from_nodup :
  forall gs, NoDup (map tag gs) ->
             NoDup (map tag (fold_left (fun gs row => add_row (snd row) gs) rows gs)).
Proof.
  induction rows as [|row rest IH]; intros gs H; simpl; auto.
  apply IH. now apply add_row_nodup.
Qed.

Lemma group_from_in (t : string) :
  forall gs,
    In t (map tag (fold_left (fun gs row => add_row (snd row) gs) rows gs))
    <-> In t (map snd rows) \/ In t (map tag gs).
Proof.
  induction rows as [|row rest IH]; intros gs; simpl.
  - tauto.
  - rewrite IH, add_row_in. intuition.
Qed.

End Grouping.

Lemma count_of_member (g : TagGroup) (gs : list TagGroup) :
  NoDup (map tag gs) -> In g gs -> count_of (tag g) gs = count g.
Proof.
  induction gs as [|h r IH]; simpl; [contradiction|].
  intros Hn [->|Hin].
  - now rewrite String.eqb_refl.
  - inversion Hn; subst.
    destruct (String.eqb (tag h) (tag g)) eqn:E.
    + apply String.eqb_eq in E. exfalso. apply H1. rewrite E.
      now apply in_map.
    + now apply IH.
Qed.

Lemma unwind_tags_snd (l : list Store) :
  map snd (unwind_tags l) = flat_map tags l.
Proof.
  induction l as [|s t IH]; simpl; auto.
  unfold unwind_tags in *. simpl.
  rewrite map_app, IH, map_map. simpl. now rewrite map_id.
Qed.

Lemma has_tag_in (t : string) (s : Store) : has_tag t s = true <-> In t (tags s).
Proof.
  unfold has_tag. rewrite existsb_exists. split.
  - intros [x [Hx E]]. apply String.eqb_eq in E. now subst.
  - intros H. exists t. split; auto. apply String.eqb_refl.
Qed.

Lemma occurrences_referencing (t : string) (l : list Store) :
  (forall s, In s l -> NoDup (tags s)) -> occurrences t l = referencing t l.
Proof.
  unfold occurrences, referencing.
  induction l as [|s r IH]; simpl; auto.
  intros H. rewrite count_occ_app, IH by (intros; apply H; now right).
  assert (Hs : NoDup (tags s)) by (apply H; now left).
  destruct (has_tag t s) eqn:E; simpl.
  - apply has_tag_in in E.
    rewrite (proj1 (NoDup_count_occ' string_dec (tags s)) Hs t E). reflexivity.
  - assert (Hn : ~ In t (tags s)).
    { intros Hin. apply has_tag_in in Hin. congruence. }
    now rewrite (proj1 (count_occ_not_In string_dec (tags s) t) Hn).
Qed.

Lemma more_rows_true (g h : TagGroup) : more_rows g h = true -> count h <= count g.
Proof. unfold more_rows. intros H. apply Nat.ltb_lt in H. lia. Qed.

Lemma more_rows_false (g h : TagGroup) : more_rows g h = false -> count g <= count h.
Proof. unfold more_rows. intros H. apply Nat.ltb_ge in H. lia. Qed.

Lemma getTagsList_perm (db : DB) :
  Permutation (getTagsList db) (group_tags (unwind_tags (stores db))).
Proof. apply sort_desc_perm. Qed.

(** C2, as the code has it.  [getTagsList] returns one group per
    distinct tag, the tags being those that some Store lists; the count
    of a group is the number of times its tag is listed, all Stores taken
    together, which is the number of Stores that list the tag when no
    Store lists a tag twice; the groups come by count, highest first.  On
    Stores tagged [a; b] and [b] the result is [b] with count 2, then [a]
    with count 1. *)
Theorem getTagsList_groups :
  (forall db,
      NoDup (map tag (getTagsList db))
      /\ (forall t, In t (map tag (getTagsList db))
                    <-> exists s, In s (stores db) /\ In t (tags s))
      /\ (forall g, In g (getTagsList db) ->
                    count g = occurrences (tag g) (stores db))
      /\ ((forall s, In s (stores db) -> NoDup (tags s)) ->
          forall g, In g (getTagsList db) ->
                    count g = referencing (tag g) (stores db))
      /\ StronglySorted (fun g h => count h <= count g) (getTagsList db))
  /\ getTagsList Samples.db_tags = [mkTagGroup "b" 2; mkTagGroup "a" 1].
Proof.
  split; [|reflexivity].
  intros db.
  pose proof (getTagsList_perm db) as P.
  assert (N : NoDup (map tag (group_tags (unwind_tags (stores db))))).
  { apply group_from_nodup. constructor. }
  assert (C : forall g, In g (getTagsList db) ->
                        count g = occurrences (tag g) (stores db)).
  { intros g Hg. apply (Permutation_in _ P) in Hg.
    rewrite <- (count_of_member g _ N Hg).
    unfold group_tags. rewrite group_from_count_of. simpl.
    now rewrite unwind_tags_snd. }
  split; [|split; [|split; [|split]]].
  - apply (Permutation_NoDup (Permutation_sym (Permutation_map tag P)) N).
  - intros t. split.
    + intros Ht. apply (Permutation_in _ (Permutation_map tag P)) in Ht.
      unfold group_tags in Ht. rewrite group_from_in in Ht.
      destruct Ht as [Ht|[]]. rewrite unwind_tags_snd in Ht.
      apply in_flat_map in Ht. exact Ht.
    + intros Hs.
      apply (Permutation_in _ (Permutation_sym (Permutation_map tag P))).
      unfold group_tags. rewrite group_from_in. left.
      rewrite unwind_tags_snd. apply in_flat_map. exact Hs.
  - exact C.
  - intros Hd g Hg. rewrite (C g Hg). now apply occurrences_referencing.
  - apply Sorted_StronglySorted.
    + intros x y z Hxy Hyz. lia.
    + apply sort_desc_sorted.
      * apply more_rows_true.
      * intros x y H. apply more_rows_false in H. exact H.
Qed.

Lemma getTagsList_groups_witness :
  (forall s, In s (stores Samples.db_tags) -> NoDup (tags s))
  /\ (forall g, In g (getTagsList Samples.db_tags) ->
                count g = referencing (tag g) (stores Samples.db_tags)).
Proof.
  assert (H : forall s, In s (stores Samples.db_tags) -> NoDup (tags s)).
  { intros s [<-|[<-|[]]]; simpl; repeat constructor; simpl; intuition discriminate. }
  split; [exact H|].
  destruct getTagsList_groups as [G _].
  destruct (G Samples.db_tags) as (_ & _ & _ & R & _).
  exact (R H).
Defined.

(** C2, as the spec words it, fails: a Store that lists a tag twice
    counts twice in the group of that tag. *)
Lemma getTagsList_counts_rows_not_stores :
  getTagsList Samples.db_twice = [mkTagGroup "a" 2]
  /\ referencing "a" (stores Samples.db_twice) = 1
  /\ exists g, In g (getTagsList Samples.db_twice)
               /\ count g <> referencing (tag g) (stores Samples.db_twice).
Proof.
  split; [reflexivity|]. split; [reflexivity|].
  exists (mkTagGroup "a" 2). split; [now left | discriminate].
Qed.

(** ** getTopStores *)

Lemma rating_above_true (a b : option Q) :
  rating_above a b = true -> rating_geq a b.
Proof.
  destruct a as [x|], b as [y|]; simpl; try discriminate; auto.
  unfold Qlt_bool. intros H. apply negb_true_iff in H.
  apply Qlt_le_weak. apply Qnot_le_lt. intros L.
  apply Qle_bool_iff in L. congruence.
Qed.

Lemma rating_above_false (a b : option Q) :
  rating_above a b = false -> rating_geq b a.
Proof.
  destruct a as [x|], b as [y|]; simpl; try discriminate; auto.
  unfold Qlt_bool. intros H. apply negb_false_iff in H.
  now apply Qle_bool_iff.
Qed.

Lemma rating_geq_trans (a b c : option Q) :
  rating_geq a b -> rating_geq b c -> rating_geq a c.
Proof.
  destruct a, b, c; simpl; auto; try contradiction.
  intros H1 H2. eapply Qle_trans; eauto.
Qed.

Lemma has_second_review_length (j : Joined) :
  has_second_review j = true <-> 2 <= List.length (joined_reviews j).
Proof.
  unfold has_second_review.
  destruct (joined_reviews j) as [|a [|b r]]; simpl; split; intros H;
    try discriminate; try lia; auto.
Qed.

Lemma lookup_reviews_in (db : DB) (j : Joined) :
  In j (lookup_reviews db)
  <-> exists s, In s (stores db) /\ j = mkJoined s (Query.reviews_of db s).
Proof.
  unfold lookup_reviews. rewrite in_map_iff. split.
  - intros [s [E H]]. exists s. split; auto.
  - intros [s [H E]]. exists s. split; auto.
Qed.

Lemma avg_of_reviews (l : list Review) :
  1 <= List.length l ->
  avg l = Some (inject_Z (sum_ratings l) / inject_Z (Z.of_nat (List.length l)))%Q.
Proof. destruct l; simpl; [lia | reflexivity]. Qed.

Lemma ranked_sorted (l : list TopStore) :
  StronglySorted by_rating (sort_desc better l).
Proof.
  apply Sorted_StronglySorted.
  - intros x y z. unfold by_rating. apply rating_geq_trans.
  - apply sort_desc_sorted.
    + intros x y. apply rating_above_true.
    + intros x y. apply rating_above_false.
Qed.

(** C5.  [getTopStores] returns Stores with at least 2 Reviews (those
    whose [store] is the Store's [_id]) and only those, each projected
    with [averageRating] the arithmetic mean of its Reviews' ratings, by
    [averageRating], highest first, and at most 10 of them: a Store with
    at least 2 Reviews is returned unless 10 returned Stores rank at least
    as high, and all of them are returned when they are at most 10. *)
Theorem getTopStores_result (db : DB) :
  (forall t, In t (getTopStores db) ->
     exists s,
       In s (stores db)
       /\ 2 <= List.length (Query.reviews_of db s)
       /\ t = project (mkJoined s (Query.reviews_of db s))
       /\ averageRating t
          = Some (inject_Z (sum_ratings (Query.reviews_of db s))
                  / inject_Z (Z.of_nat (List.length (Query.reviews_of db s))))%Q)
  /\ (forall s,
         In s (stores db) ->
         2 <= List.length (Query.reviews_of db s) ->
         In (project (mkJoined s (Query.reviews_of db s))) (getTopStores db)
         \/ (List.length (getTopStores db) = 10
             /\ forall t, In t (getTopStores db) ->
                          by_rating t (project (mkJoined s (Query.reviews_of db s)))))
  /\ (List.length (filter has_second_review (lookup_reviews db)) <= 10 ->
      Permutation (getTopStores db)
                  (map project (filter has_second_review (lookup_reviews db))))
  /\ StronglySorted by_rating (getTopStores db)
  /\ List.length (getTopStores db) <= 10.
Proof.
  unfold getTopStores.
  set (qual := filter has_second_review (lookup_reviews db)).
  set (all := sort_desc better (map project qual)).
  assert (P : Permutation all (map project qual)) by apply sort_desc_perm.
  assert (S : StronglySorted by_rating all) by apply ranked_sorted.
  split; [|split; [|split; [|split]]].
  - intros t Ht.
    assert (Hall : In t all).
    { rewrite <- (firstn_skipn 10 all). apply in_or_app. now left. }
    apply (Permutation_in _ P) in Hall.
    apply in_map_iff in Hall. destruct Hall as [j [<- Hj]].
    apply filter_In in Hj. destruct Hj as [Hj H2].
    apply lookup_reviews_in in Hj. destruct Hj as [s [Hs ->]].
    apply has_second_review_length in H2. simpl in H2.
    exists s. repeat split; auto.
    simpl. apply avg_of_reviews. lia.
  - intros s Hs H2.
    set (j := mkJoined s (Query.reviews_of db s)).
    assert (Hall : In (project j) all).
    { apply (Permutation_in _ (Permutation_sym P)).
      apply in_map. apply filter_In. split.
      - apply lookup_reviews_in. exists s. auto.
      - apply has_second_review_length. exact H2. }
    rewrite <- (firstn_skipn 10 all) in Hall.
    apply in_app_or in Hall. destruct Hall as [Hin|Hout]; [now left|right].
    assert (L : 10 <= List.length all).
    { destruct (Nat.le_gt_cases 10 (List.length all)) as [L|L]; auto.
      rewrite skipn_all2 in Hout by lia. contradiction. }
    split.
    + now apply firstn_length_le.
    + intros t Ht.
      rewrite <- (firstn_skipn 10 all) in S.
      exact (strongly_sorted_app _ _ _ _ S t (project j) Ht Hout).
  - intros Hle. rewrite firstn_all2; [exact P|].
    rewrite (Permutation_length P), length_map. exact Hle.
  - now apply strongly_sorted_firstn.
  - apply firstn_le_length.
Qed.

Lemma getTopStores_result_witness :
  map (fun t => (top_name t, averageRating t)) (getTopStores Samples.db_rated)
  = [("X", Some (9 # 2)%Q); ("Y", Some (9 # 3)%Q)]
  /\ (exists s, In s (stores Samples.db_rated)
                /\ 2 <= List.length (Query.reviews_of Samples.db_rated s)
                /\ name s = "X")
  /\ (In (project (mkJoined (Samples.new_store 2 "X" [])
                            (Query.reviews_of Samples.db_rated
                                              (Samples.new_store 2 "X" []))))
         (getTopStores Samples.db_rated)
      \/ List.length (getTopStores Samples.db_rated) = 10)
  /\ Permutation (getTopStores Samples.db_rated)
                 (map project (filter has_second_review
                                      (lookup_reviews Samples.db_rated))).
Proof.
  destruct (getTopStores_result Samples.db_rated) as (H1 & H2 & H3 & _ & _).
  split; [reflexivity|]. split; [|split].
  - destruct (H1 (project (mkJoined (Samples.new_store 2 "X" [])
                                     (Query.reviews_of Samples.db_rated
                                                       (Samples.new_store 2 "X" [])))))
      as [s (Hs & Hl & Ht & _)].
    + simpl. now left.
    + exists s. repeat split; auto.
      apply (f_equal top_name) in Ht. simpl in Ht. now rewrite <- Ht.
  - destruct (H2 (Samples.new_store 2 "X" [])) as [Hin|[Hlen _]].
    + simpl. right. now left.
    + simpl. lia.
    + now left.
    + now right.
  - apply H3. simpl. lia.
Defined.

(** ** Reads populate the reviews *)

Lemma pre_has_reviews (q : Query.Query) :
  Query.has_path "reviews" (Query.pre (Query.op q) q) = true.
Proof. destruct q as [[] c p]; reflexivity. Qed.

Lemma pre_keeps_query (q : Query.Query) :
  Query.op (Query.pre (Query.op q) q) = Query.op q
  /\ Query.conditions (Query.pre (Query.op q) q) = Query.conditions q.
Proof. destruct q as [[] c p]; split; reflexivity. Qed.

Lemma reviews_of_in (db : DB) (s : Store) (r : Review) :
  In r (Query.reviews_of db s) <-> In r (reviews db) /\ store r = _id s.
Proof.
  unfold Query.reviews_of. rewrite filter_In.
  now rewrite Nat.eqb_eq.
Qed.

Lemma exec_shape (db : DB) (q : Query.Query) :
  Query.exec db q
  = map (fun s => Query.mkFetched s (Some (Query.reviews_of db s)))
        (match Query.op q with
         | Query.OpFind => filter (Query.conditions q) (stores db)
         | Query.OpFindOne => firstn 1 (filter (Query.conditions q) (stores db))
         end).
Proof.
  unfold Query.exec, Query.run_query.
  destruct (pre_keeps_query q) as [-> ->].
  destruct (Query.op q) eqn:E; apply map_ext; intros s;
    unfold Query.attach; rewrite <- E, pre_has_reviews; reflexivity.
Qed.

(** C8.  A read of Stores, [find] or [findOne], whatever the caller asked
    to populate, returns the Stores that its filter selects (all of them,
    or the first), and each comes with its Reviews, those whose [store]
    is the Store's [_id], attached. *)
Theorem reads_attach_reviews (db : DB) (q : Query.Query) :
  map Query.fetched (Query.exec db q)
  = match Query.op q with
    | Query.OpFind => filter (Query.conditions q) (stores db)
    | Query.OpFindOne => firstn 1 (filter (Query.conditions q) (stores db))
    end
  /\ forall f,
       In f (Query.exec db q) ->
       exists rs,
         Query.fetched_reviews f = Some rs
         /\ forall r, In r rs <-> In r (reviews db) /\ store r = _id (Query.fetched f).
Proof.
  rewrite exec_shape. split.
  - rewrite map_map. simpl. apply map_id.
  - intros f Hf. apply in_map_iff in Hf. destruct Hf as [s [<- _]].
    exists (Query.reviews_of db s). split; [reflexivity|].
    intros r. simpl. apply reviews_of_in.
Qed.

Lemma reads_attach_reviews_witness :
  In (Query.mkFetched (Samples.new_store 2 "X" [])
                      (Some [mkReview 2 2 4; mkReview 4 2 5]))
     (Query.findOne Samples.db_rated (fun s => (_id s =? 2)%nat))
  /\ exists rs,
       Some [mkReview 2 2 4; mkReview 4 2 5] = Some rs
       /\ forall r, In r rs <-> In r (reviews Samples.db_rated) /\ store r = 2.
Proof.
  assert (H : In (Query.mkFetched (Samples.new_store 2 "X" [])
                                  (Some [mkReview 2 2 4; mkReview 4 2 5]))
                 (Query.findOne Samples.db_rated (fun s => (_id s =? 2)%nat)))
    by (now left).
  split; [exact H|].
  exact (proj2 (reads_attach_reviews
                  Samples.db_rated
                  (Query.mkQuery Query.OpFindOne (fun s => (_id s =? 2)%nat) []))
               _ H).
Defined.

(** ** The mail handler *)

Section MailFacts.

Variable dirname : string.
Variable renderFile : string -> Mail.Options -> option string.
Variable juice : string -> string.
Variable fromString : string -> string.
Variable Receipt : Type.
Variable sendMail : Mail.MailOptions -> Receipt.

Lemma mailOptions_inv (options : Mail.Options) (m : Mail.MailOptions) :
  Mail.mailOptions dirname renderFile juice fromString options = Some m ->
  exists u html,
    Mail.user options = Some u
    /\ Mail.generateHTML dirname renderFile juice (Mail.filename options) options
       = Some html
    /\ m = Mail.mkMailOptions "Bill Schupp <noreply@bill.com>" (Mail.email u)
                              (Mail.subject options) html (fromString html).
Proof.
  unfold Mail.mailOptions.
  destruct (Mail.generateHTML _ _ _ _ _) as [html|]; [|discriminate].
  destruct (Mail.user options) as [u|]; [|discriminate].
  intros E. inversion E. exists u, html. auto.
Qed.

(** C10.  Whatever the [options], the mail that [send] hands to the
    transport has the sender ["Bill Schupp <noreply@bill.com>"]; its
    recipient is [options.user.email], its subject [options.subject], its
    bodies the rendered template and the text made from it. *)
Theorem send_from_is_fixed (options : Mail.Options) (receipt : Receipt) :
  Mail.send dirname renderFile juice fromString sendMail options = Some receipt ->
  exists m u html,
    receipt = sendMail m
    /\ Mail.mailOptions dirname renderFile juice fromString options = Some m
    /\ Mail.mail_from m = "Bill Schupp <noreply@bill.com>"
    /\ Mail.user options = Some u
    /\ Mail.generateHTML dirname renderFile juice (Mail.filename options) options
       = Some html
    /\ Mail.mail_to m = Mail.email u
    /\ Mail.mail_subject m = Mail.subject options
    /\ Mail.mail_html m = html
    /\ Mail.mail_text m = fromString html.
Proof.
  unfold Mail.send.
  destruct (Mail.mailOptions dirname renderFile juice fromString options) as [m|] eqn:E;
    [|discriminate].
  intros R. inversion R.
  destruct (mailOptions_inv options m E) as (u & html & Hu & Hh & ->).
  exists (Mail.mkMailOptions "Bill Schupp <noreply@bill.com>" (Mail.email u)
                             (Mail.subject options) html (fromString html)), u, html.
  repeat split; auto.
Qed.

End MailFacts.

Lemma send_from_is_fixed_witness :
  Mail.send "/app/handlers" Samples.sample_renderFile Samples.sample_juice
            Samples.sample_fromString Mail.mail_to Samples.mail_options
  = Some "randy@example.com"
  /\ exists m,
       Mail.mailOptions "/app/handlers" Samples.sample_renderFile Samples.sample_juice
                        Samples.sample_fromString Samples.mail_options = Some m
       /\ Mail.mail_from m = "Bill Schupp <noreply@bill.com>".
Proof.
  split; [reflexivity|].
  destruct (send_from_is_fixed
              "/app/handlers" Samples.sample_renderFile Samples.sample_juice
              Samples.sample_fromString string Mail.mail_to
              Samples.mail_options "randy@example.com" eq_refl)
    as (m & u & html & _ & Hm & Hf & _).
  exists m. split; [exact Hm | exact Hf].
Defined.

(** ** The scenario of the spec *)

(** The query has no condition on [_id]: a Store that is renamed from
    ["Wes"] to ["WES"], alone in the collection, finds itself and gets the
    slug ["wes-2"]. *)
Example renamed_store_counts_itself :
  slug (SlugAssigner.doc
          (SlugAssigner.pre_save
             (mkDB [mkStore 1 "Wes" "wes" "" [] "" 0] [])
             (SlugAssigner.rename
                (SlugAssigner.mkDocument (mkStore 1 "Wes" "wes" "" [] "" 0) false [])
                "WES")))
  = "wes-2".
Proof. reflexivity. Qed.

(** Two Stores named ["Clean Eating"] get the slugs ["clean-eating"] and
    ["clean-eating-2"]; renaming the second to ["Something Else"] gives it
    the slug ["something-else"] and leaves the first as it was. *)
Example clean_eating_scenario :
  map slug (stores Samples.db_clean) = ["clean-eating"; "clean-eating-2"]
  /\ map slug
         (stores
            (fst (SlugAssigner.save
                    Samples.db_clean
                    (SlugAssigner.rename
                       (SlugAssigner.mkDocument
                          (mkStore 2 "Clean Eating" "clean-eating-2" "" [] "" 0) false [])
                       "Something Else"))))
     = ["clean-eating"; "something-else"].
Proof. split; reflexivity. Qed.

(** * Further properties of the hook, the pipelines and the handlers *)

Import Sequences Totals.

(** ** The hook touches the slug only *)

Lemma isModified_mark (path p : string) (paths : list string) :
  existsb (String.eqb p) (SlugAssigner.mark path paths)
  = String.eqb p path || existsb (String.eqb p) paths.
Proof.
  unfold SlugAssigner.mark.
  destruct (existsb (String.eqb path) paths) eqn:E; simpl; auto.
  destruct (String.eqb p path) eqn:Ep; simpl; auto.
  apply String.eqb_eq in Ep. subst p. exact E.
Qed.

Lemma assign_slug_other_paths (this : SlugAssigner.Document) (v p : string) :
  p <> "slug" ->
  SlugAssigner.isModified (SlugAssigner.assign_slug this v) p
  = SlugAssigner.isModified this p.
Proof.
  intros Hp. unfold SlugAssigner.isModified, SlugAssigner.assign_slug.
  cbn [SlugAssigner.modifiedPaths].
  destruct (SlugAssigner.isNew this || negb (v =? slug (SlugAssigner.doc this))%string);
    auto.
  rewrite isModified_mark.
  apply String.eqb_neq in Hp. now rewrite Hp.
Qed.

Lemma assign_slug_marks (this : SlugAssigner.Document) (v : string) :
  SlugAssigner.isNew this = true \/ v <> slug (SlugAssigner.doc this) ->
  SlugAssigner.isModified (SlugAssigner.assign_slug this v) "slug" = true.
Proof.
  intros H. unfold SlugAssigner.isModified, SlugAssigner.assign_slug.
  cbn [SlugAssigner.modifiedPaths].
  assert (E : SlugAssigner.isNew this
              || negb (v =? slug (SlugAssigner.doc this))%string = true).
  { destruct H as [->|H]; auto.
    apply String.eqb_neq in H. rewrite H. apply orb_true_r. }
  rewrite E, isModified_mark. reflexivity.
Qed.

(** X1.  Whatever the collection and the document, the pre-save hook
    leaves every field other than [slug] as it was, and the document as
    new as it was; of the modified paths it may mark [slug] and changes
    no other; and it does mark [slug] when the name was modified and the
    document is new or its slug changed. *)
Theorem pre_save_changes_slug_only (db : DB) (this : SlugAssigner.Document) :
  _id (SlugAssigner.doc (SlugAssigner.pre_save db this)) = _id (SlugAssigner.doc this)
  /\ name (SlugAssigner.doc (SlugAssigner.pre_save db this)) = name (SlugAssigner.doc this)
  /\ description (SlugAssigner.doc (SlugAssigner.pre_save db this))
     = description (SlugAssigner.doc this)
  /\ tags (SlugAssigner.doc (SlugAssigner.pre_save db this)) = tags (SlugAssigner.doc this)
  /\ photo (SlugAssigner.doc (SlugAssigner.pre_save db this)) = photo (SlugAssigner.doc this)
  /\ author (SlugAssigner.doc (SlugAssigner.pre_save db this)) = author (SlugAssigner.doc this)
  /\ SlugAssigner.isNew (SlugAssigner.pre_save db this) = SlugAssigner.isNew this
  /\ (forall path,
         path <> "slug" ->
         SlugAssigner.isModified (SlugAssigner.pre_save db this) path
         = SlugAssigner.isModified this path)
  /\ (SlugAssigner.isModified this "name" = true ->
      SlugAssigner.isNew this = true
      \/ slug (SlugAssigner.doc (SlugAssigner.pre_save db this))
         <> slug (SlugAssigner.doc this) ->
      SlugAssigner.isModified (SlugAssigner.pre_save db this) "slug" = true).
Proof.
  unfold SlugAssigner.pre_save.
  destruct (SlugAssigner.isModified this "name") eqn:Hm; cbn [negb].
  2: { repeat split. discriminate. }
  cbv zeta.
  set (this1 := SlugAssigner.assign_slug this (Slug.slug (name (SlugAssigner.doc this)))).
  destruct (negb (List.length _ =? 0)%nat).
  - repeat split.
    + intros path Hp. unfold this1. now rewrite !assign_slug_other_paths.
    + intros _ _. apply assign_slug_marks. right.
      cbn [this1 SlugAssigner.assign_slug SlugAssigner.doc slug set_slug].
      apply append_nonempty_r.
  - repeat split.
    + intros path Hp. unfold this1. now rewrite assign_slug_other_paths.
    + intros _ H. apply assign_slug_marks.
      destruct H as [H|H]; [now left | right]. exact H.
Qed.

Lemma pre_save_changes_slug_only_witness :
  SlugAssigner.isModified (Samples.new_doc 3 "Clean Eating") "name" = true
  /\ SlugAssigner.isModified
       (SlugAssigner.pre_save Samples.db_clean (Samples.new_doc 3 "Clean Eating"))
       "slug" = true.
Proof.
  split; [reflexivity|].
  destruct (pre_save_changes_slug_only Samples.db_clean
                                       (Samples.new_doc 3 "Clean Eating"))
    as (_ & _ & _ & _ & _ & _ & _ & _ & H).
  apply H; [reflexivity | now left].
Defined.

(** X2.  When the name was modified, the assigned slug is the base slug
    or the base slug with a dash and a number that is at least 2, and the
    pattern that the hook builds for that base matches it: a later query
    for the same base counts this Store. *)
Theorem assigned_slug_shape (db : DB) (this : SlugAssigner.Document) :
  SlugAssigner.isModified this "name" = true ->
  (slug (SlugAssigner.doc (SlugAssigner.pre_save db this))
   = Slug.slug (name (SlugAssigner.doc this))
   \/ exists n,
        2 <= n
        /\ slug (SlugAssigner.doc (SlugAssigner.pre_save db this))
           = Slug.slug (name (SlugAssigner.doc this)) ++ "-" ++ SlugAssigner.decimal n)
  /\ SlugAssigner.slug_filter (Slug.slug (name (SlugAssigner.doc this)))
                              (SlugAssigner.doc (SlugAssigner.pre_save db this)) = true.
Proof.
  intros Hm. rewrite slug_filter_in_words, pre_save_modified by exact Hm.
  destruct (List.length _) as [|k] eqn:E.
  - split; [now left | apply base_matches_itself].
  - split; [|apply numbered_matches_base].
    right. exists (S k + 1). split; [lia | reflexivity].
Qed.

Lemma assigned_slug_shape_witness :
  SlugAssigner.isModified (Samples.new_doc 3 "Clean Eating") "name" = true
  /\ SlugAssigner.slug_filter
       "clean-eating"
       (SlugAssigner.doc
          (SlugAssigner.pre_save Samples.db_clean (Samples.new_doc 3 "Clean Eating")))
     = true.
Proof.
  split; [reflexivity|].
  exact (proj2 (assigned_slug_shape Samples.db_clean
                                    (Samples.new_doc 3 "Clean Eating") eq_refl)).
Defined.

(** ** Creating several Stores under one base slug *)

Lemma slug_for_count_created (db : DB) (s : Store) :
  slug (SlugAssigner.doc (snd (SlugAssigner.create db s)))
  = slug_for_count
      (Slug.slug (name s))
      (List.length (SlugAssigner.storesWithSlug db (Slug.slug (name s)))).
Proof. rewrite created_slug. reflexivity. Qed.

Lemma slug_for_count_inj (base : string) (a b : nat) :
  slug_for_count base a = slug_for_count base b -> a = b.
Proof.
  destruct a as [|a], b as [|b]; simpl; auto.
  - intros H. symmetry in H. exfalso. revert H. apply append_nonempty_r.
  - intros H. exfalso. revert H. apply append_nonempty_r.
  - intros H. apply append_cancel_l in H. inversion H as [H1].
    apply decimal_inj in H1. lia.
Qed.

Lemma created_count (db : DB) (s : Store) :
  (forall x, In x (stores db) -> _id x <> _id s) ->
  List.length
    (SlugAssigner.storesWithSlug (fst (SlugAssigner.create db s)) (Slug.slug (name s)))
  = S (List.length (SlugAssigner.storesWithSlug db (Slug.slug (name s)))).
Proof.
  intros Hnew.
  rewrite !storesWithSlug_length, created_stores.
  rewrite upsert_new by (rewrite created_id; exact Hnew).
  rewrite filter_app, length_app. cbn [filter].
  rewrite created_slug_matches. simpl. lia.
Qed.

Lemma created_stores_ids (db : DB) (s : Store) (x : Store) :
  In x (stores (fst (SlugAssigner.create db s))) ->
  _id x = _id s \/ In x (stores db).
Proof.
  rewrite created_stores.
  generalize (created_id db s).
  generalize (SlugAssigner.doc (snd (SlugAssigner.create db s))).
  intros d Hd. induction (stores db) as [|y t IH]; simpl.
  - intros [<-|[]]. now left.
  - destruct (_id y =? _id d)%nat.
    + intros [<-|H]; auto.
    + intros [<-|H]; auto. destruct (IH H); auto.
Qed.

(** X3.  Stores that are new to the collection, with distinct [_id]s and
    names of one base slug, are created one after the other.  When the
    query for that base found [k] Stores before, the [i]-th of them (from
    0) gets the slug for [k + i] matches: the base slug for 0, the base
    slug with [-(k + i + 1)] otherwise.  The slugs so assigned are pairwise
    distinct. *)
Theorem slugs_of_creations (base : string) :
  forall (l : list Store) (db : DB),
    (forall s, In s l -> Slug.slug (name s) = base) ->
    NoDup (map _id l) ->
    (forall s x, In s l -> In x (stores db) -> _id x <> _id s) ->
    snd (create_all db l)
    = map (fun i => slug_for_count
                      base (List.length (SlugAssigner.storesWithSlug db base) + i))
          (seq 0 (List.length l))
    /\ NoDup (snd (create_all db l)).
Proof.
  assert (G : forall (l : list Store) (db : DB),
             (forall s, In s l -> Slug.slug (name s) = base) ->
             NoDup (map _id l) ->
             (forall s x, In s l -> In x (stores db) -> _id x <> _id s) ->
             snd (create_all db l)
             = map (fun i => slug_for_count
                               base
                               (List.length (SlugAssigner.storesWithSlug db base) + i))
                   (seq 0 (List.length l))).
  { induction l as [|s t IH]; intros db Hbase Hids Hnew; [reflexivity|].
    cbn [create_all snd List.length seq map].
    assert (Hs : Slug.slug (name s) = base) by (apply Hbase; now left).
    inversion Hids as [|a b Hnotin Hrest]; subst a b.
    f_equal.
    - rewrite slug_for_count_created, Hs. now rewrite Nat.add_0_r.
    - rewrite IH.
      + assert (C := created_count db s).
        rewrite Hs in C. rewrite C by (intros x Hx; apply (Hnew s x); auto; now left).
        rewrite <- seq_shift, map_map.
        apply map_ext. intros i. f_equal. lia.
      + intros s' Hs'. apply Hbase. now right.
      + exact Hrest.
      + intros s' x Hs' Hx. apply created_stores_ids in Hx.
        destruct Hx as [Hx|Hx].
        * rewrite Hx. intros E. apply Hnotin. rewrite E. now apply in_map.
        * apply (Hnew s' x); auto. now right. }
  intros l db Hbase Hids Hnew. split; [now apply G|].
  rewrite G by assumption.
  apply Finite.Injective_map_NoDup; [|apply seq_NoDup].
  intros a b H. apply slug_for_count_inj in H. lia.
Qed.

Lemma slugs_of_creations_witness :
  snd (create_all Db.empty
                  [Samples.new_store 1 "Clean Eating" [];
                   Samples.new_store 2 "clean eating" [];
                   Samples.new_store 3 "Clean, Eating!" []])
  = ["clean-eating"; "clean-eating-2"; "clean-eating-3"].
Proof.
  rewrite (proj1 (slugs_of_creations
                    "clean-eating"
                    [Samples.new_store 1 "Clean Eating" [];
                     Samples.new_store 2 "clean eating" [];
                     Samples.new_store 3 "Clean, Eating!" []]
                    Db.empty
                    ltac:(intros s [<-|[<-|[<-|[]]]]; reflexivity)
                    ltac:(simpl; repeat constructor; simpl; intuition discriminate)
                    ltac:(intros s x _ [])));
    reflexivity.
Defined.

(** ** What the assigned slug depends on *)

Lemma filter_map_length {A B : Type} (f : A -> B) (p : B -> bool) (l : list A) :
  List.length (filter (fun x => p (f x)) l) = List.length (filter p (map f l)).
Proof.
  induction l as [|a t IH]; simpl; auto.
  destruct (p (f a)); simpl; now rewrite IH.
Qed.

Lemma filter_length_perm {A : Type} (p : A -> bool) (l l' : list A) :
  Permutation l l' -> List.length (filter p l) = List.length (filter p l').
Proof.
  induction 1; simpl; auto.
  - destruct (p x); simpl; now rewrite IHPermutation.
  - destruct (p x), (p y); reflexivity.
  - congruence.
Qed.

(** X4.  The hook reads the collection through the slugs of its Stores
    alone, and not in their order: two databases whose Stores carry the
    same slugs, in whatever order and with whatever other fields and
    Reviews, lead to the same document. *)
Theorem pre_save_reads_slugs_only (db1 db2 : DB) (this : SlugAssigner.Document) :
  Permutation (map slug (stores db1)) (map slug (stores db2)) ->
  SlugAssigner.pre_save db1 this = SlugAssigner.pre_save db2 this.
Proof.
  intros P. unfold SlugAssigner.pre_save.
  destruct (negb (SlugAssigner.isModified this "name")); [reflexivity|].
  assert (E : forall db base,
             List.length (SlugAssigner.storesWithSlug db base)
             = List.length (filter (test true (SlugAssigner.slugRegEx base))
                                   (map slug (stores db)))).
  { intros db base. unfold SlugAssigner.storesWithSlug.
    rewrite <- (length_map Query.fetched), find_fetched.
    apply (filter_map_length slug (test true (SlugAssigner.slugRegEx base))). }
  cbv zeta. rewrite !E.
  now rewrite (filter_length_perm _ _ _ P).
Qed.

Lemma pre_save_reads_slugs_only_witness :
  SlugAssigner.pre_save
    (mkDB [mkStore 7 "B" "clean-eating-2" "" ["x"] "" 0;
           mkStore 9 "A" "clean-eating" "" [] "" 0] [mkReview 1 7 5])
    (Samples.new_doc 3 "Clean Eating")
  = SlugAssigner.pre_save Samples.db_clean (Samples.new_doc 3 "Clean Eating").
Proof.
  apply pre_save_reads_slugs_only. simpl. apply perm_swap.
Defined.

(** ** Saving again *)

Lemma upsert_again (x : Store) (l : list Store) : upsert x (upsert x l) = upsert x l.
Proof.
  induction l as [|y t IH]; simpl.
  - now rewrite Nat.eqb_refl.
  - destruct (_id y =? _id x)%nat eqn:E; simpl.
    + now rewrite Nat.eqb_refl.
    + now rewrite E, IH.
Qed.

(** X5.  A document that was just saved has no modified path; saving it
    again at once runs the hook's skip path and leaves the collection and
    the document, its slug included, as the first save left them. *)
Theorem save_again_changes_nothing (db : DB) (this : SlugAssigner.Document) :
  SlugAssigner.save (fst (SlugAssigner.save db this)) (snd (SlugAssigner.save db this))
  = SlugAssigner.save db this.
Proof.
  unfold SlugAssigner.save at 1.
  rewrite pre_save_unmodified by reflexivity.
  unfold SlugAssigner.save. cbn [fst snd stores reviews SlugAssigner.doc].
  now rewrite upsert_again.
Qed.

(** ** getTagsList: totals and the empty report *)

Lemma add_row_total (t : string) (gs : list TagGroup) :
  total_count (add_row t gs) = S (total_count gs).
Proof.
  induction gs as [|g r IH]; simpl; auto.
  destruct (String.eqb (tag g) t); simpl; [reflexivity|].
  rewrite IH. lia.
Qed.

Lemma add_row_positive (t : string) (gs : list TagGroup) :
  Forall (fun g => 1 <= count g) gs ->
  Forall (fun g => 1 <= count g) (add_row t gs).
Proof.
  induction 1 as [|g r Hg Hr IH]; simpl.
  - repeat constructor.
  - destruct (String.eqb (tag g) t); constructor; simpl; auto; lia.
Qed.

Lemma group_from_total (rows : list (Store * string)) :
  forall gs,
    total_count (fold_left (fun gs row => add_row (snd row) gs) rows gs)
    = total_count gs + List.length rows.
Proof.
  induction rows as [|row rest IH]; intros gs; simpl; [lia|].
  rewrite IH, add_row_total. lia.
Qed.

Lemma group_from_positive (rows : list (Store * string)) :
  forall gs,
    Forall (fun g => 1 <= count g) gs ->
    Forall (fun g => 1 <= count g)
           (fold_left (fun gs row => add_row (snd row) gs) rows gs).
Proof.
  induction rows as [|row rest IH]; intros gs H; simpl; auto.
  apply IH. now apply add_row_positive.
Qed.

Lemma total_count_perm (l l' : list TagGroup) :
  Permutation l l' -> total_count l = total_count l'.
Proof. induction 1; simpl; lia. Qed.

Lemma unwind_tags_length (l : list Store) :
  List.length (unwind_tags l) = List.length (flat_map tags l).
Proof. now rewrite <- unwind_tags_snd, length_map. Qed.

(** X6.  The counts that [getTagsList] reports add up to the number of
    tag entries of the collection (each Store's [tags], with repeats), and
    no group has a count of 0. *)
Theorem getTagsList_total (db : DB) :
  total_count (getTagsList db) = List.length (flat_map tags (stores db))
  /\ Forall (fun g => 1 <= count g) (getTagsList db).
Proof.
  pose proof (getTagsList_perm db) as P. split.
  - rewrite (total_count_perm _ _ P). unfold group_tags.
    rewrite group_from_total. simpl. apply unwind_tags_length.
  - apply (Permutation_Forall (Permutation_sym P)).
    unfold group_tags. apply group_from_positive. constructor.
Qed.

Lemma flat_map_no_tags (l : list Store) :
  (forall s, In s l -> tags s = []) -> flat_map tags l = [].
Proof.
  induction l as [|s r IH]; simpl; auto.
  intros H. rewrite (H s) by (now left). simpl.
  apply IH. intros x Hx. apply H. now right.
Qed.

(** X7.  [getTagsList] reports no group exactly when no Store of the
    collection has a tag; Stores without tags, and an empty collection,
    give the empty report. *)
Theorem getTagsList_empty (db : DB) :
  getTagsList db = [] <-> forall s, In s (stores db) -> tags s = [].
Proof.
  pose proof (getTagsList_perm db) as P.
  pose proof (proj1 (getTagsList_total db)) as T.
  split.
  - intros E s Hs. rewrite E in T. simpl in T.
    destruct (tags s) as [|t r] eqn:Et; auto.
    assert (Hin : In t (flat_map tags (stores db))).
    { apply in_flat_map. exists s. split; auto. rewrite Et. now left. }
    destruct (flat_map tags (stores db)); [contradiction | discriminate].
  - intros H.
    assert (F : flat_map tags (stores db) = []) by now apply flat_map_no_tags.
    rewrite F in T. simpl in T.
    destruct (getTagsList db) as [|g r] eqn:E; auto.
    exfalso.
    pose proof (proj2 (getTagsList_total db)) as Pos. rewrite E in Pos.
    inversion Pos; subst. simpl in T. lia.
Qed.

(** ** getTopStores: unrelated Reviews, bounds, repeats *)

Lemma top_stores_in (db : DB) (t : TopStore) :
  In t (getTopStores db) ->
  exists s,
    In s (stores db)
    /\ 2 <= List.length (Query.reviews_of db s)
    /\ t = project (mkJoined s (Query.reviews_of db s)).
Proof.
  unfold getTopStores. intros Ht.
  assert (Hall : In t (sort_desc better
                         (map project (filter has_second_review (lookup_reviews db))))).
  { rewrite <- (firstn_skipn 10 (sort_desc better _)). apply in_or_app. now left. }
  apply (Permutation_in _ (sort_desc_perm _ better _)) in Hall.
  apply in_map_iff in Hall. destruct Hall as [j [<- Hj]].
  apply filter_In in Hj. destruct Hj as [Hj H2].
  apply lookup_reviews_in in Hj. destruct Hj as [s [Hs ->]].
  apply has_second_review_length in H2. simpl in H2.
  exists s. auto.
Qed.

Lemma filter_filter_implied {A : Type} (p q : A -> bool) (l : list A) :
  (forall x, In x l -> p x = true -> q x = true) ->
  filter p (filter q l) = filter p l.
Proof.
  induction l as [|a t IH]; simpl; auto.
  intros H. destruct (q a) eqn:Q; simpl.
  - rewrite IH by (intros; apply H; auto). reflexivity.
  - destruct (p a) eqn:Pa.
    + rewrite (H a) in Q; auto. discriminate.
    + apply IH. intros; apply H; auto.
Qed.

(** X8.  Reviews that refer to no Store of the collection have no effect
    on [getTopStores]. *)
Theorem getTopStores_ignores_orphans (db : DB) :
  getTopStores (without_orphans db) = getTopStores db.
Proof.
  unfold getTopStores. do 4 f_equal.
  unfold lookup_reviews, without_orphans. cbn [stores reviews].
  apply map_ext_in. intros s Hs. f_equal.
  apply filter_filter_implied. intros r _ Hr.
  unfold references_some. apply existsb_exists. exists s. auto.
Qed.

Lemma sum_ratings_bounds (lo hi : Z) (l : list Review) :
  (forall r, In r l -> (lo <= rating r <= hi)%Z) ->
  (lo * Z.of_nat (List.length l) <= sum_ratings l
   <= hi * Z.of_nat (List.length l))%Z.
Proof.
  induction l as [|r t IH]; intros H.
  - simpl. lia.
  - assert (Hr : (lo <= rating r <= hi)%Z) by (apply H; now left).
    assert (Ht := IH (fun x Hx => H x (or_intror Hx))).
    cbn [sum_ratings fold_right List.length]. fold (sum_ratings t).
    rewrite Nat2Z.inj_succ. lia.
Qed.

(** X9.  When every rating in the database lies between [lo] and [hi],
    so does the [averageRating] of every Store that [getTopStores]
    returns, and that [averageRating] is a number, never [null]. *)
Theorem averageRating_bounds (db : DB) (lo hi : Z) :
  (forall r, In r (reviews db) -> (lo <= rating r <= hi)%Z) ->
  forall t, In t (getTopStores db) ->
            exists q, averageRating t = Some q
                      /\ (inject_Z lo <= q)%Q /\ (q <= inject_Z hi)%Q.
Proof.
  intros H t Ht.
  destruct (top_stores_in db t Ht) as [s (Hs & H2 & ->)].
  set (rs := Query.reviews_of db s) in *.
  assert (Hb : forall r, In r rs -> (lo <= rating r <= hi)%Z).
  { intros r Hr. apply H. apply reviews_of_in in Hr. tauto. }
  apply sum_ratings_bounds in Hb.
  cbn [project averageRating joined_reviews].
  rewrite avg_of_reviews by lia.
  eexists. split; [reflexivity|].
  assert (Hn : (0 < inject_Z (Z.of_nat (List.length rs)))%Q).
  { change 0%Q with (inject_Z 0). rewrite <- Zlt_Qlt. lia. }
  split.
  - apply Qle_shift_div_l; auto.
    rewrite <- inject_Z_mult, <- Zle_Qle. tauto.
  - apply Qle_shift_div_r; auto.
    rewrite <- inject_Z_mult, <- Zle_Qle. tauto.
Qed.

Lemma averageRating_bounds_witness :
  (forall r, In r (reviews Samples.db_rated) -> (1 <= rating r <= 5)%Z)
  /\ exists q,
       averageRating (project (mkJoined (Samples.new_store 2 "X" [])
                                        (Query.reviews_of Samples.db_rated
                                                          (Samples.new_store 2 "X" []))))
       = Some q
       /\ (inject_Z 1 <= q)%Q /\ (q <= inject_Z 5)%Q.
Proof.
  assert (H : forall r, In r (reviews Samples.db_rated) -> (1 <= rating r <= 5)%Z).
  { intros r Hr. simpl in Hr.
    destruct Hr as [<-|[<-|[<-|[<-|[<-|[<-|[]]]]]]]; simpl; lia. }
  split; [exact H|].
  apply (averageRating_bounds Samples.db_rated 1 5 H). simpl. now left.
Defined.

Lemma kept_ids_distinct (keep : Joined -> bool) :
  forall js,
    NoDup (map (fun j => _id (root j)) js) ->
    NoDup (map (fun j => _id (root j)) (filter keep js)).
Proof.
  induction js as [|j js IH]; cbn; intros D; [constructor|].
  apply NoDup_cons_iff in D. destruct D as [Hj D].
  destruct (keep j); cbn; [|now apply IH].
  apply NoDup_cons_iff. split; [|now apply IH].
  contradict Hj. apply in_map_iff in Hj. destruct Hj as [j' [E Hj']].
  apply in_map_iff. exists j'. apply filter_In in Hj'. tauto.
Qed.

Lemma first_ids_distinct (n : nat) :
  forall ids : list ObjectId, NoDup ids -> NoDup (firstn n ids).
Proof.
  induction n as [|n IH]; intros [|i ids] D; cbn; try constructor.
  - apply NoDup_cons_iff in D. intros Hi. apply (proj1 D).
    rewrite <- (firstn_skipn n ids). apply in_or_app. now left.
  - apply IH. now apply NoDup_cons_iff in D.
Qed.

(** X10.  When the Stores of the collection have distinct [_id]s, no
    Store is listed twice by [getTopStores]. *)
Theorem getTopStores_no_repeats (db : DB) :
  NoDup (map _id (stores db)) -> NoDup (map top_id (getTopStores db)).
Proof.
  intros H. unfold getTopStores. rewrite <- firstn_map. apply first_ids_distinct.
  apply (Permutation_NoDup
           (Permutation_sym (Permutation_map top_id (sort_desc_perm _ better _)))).
  rewrite map_map. cbn [project top_id].
  apply kept_ids_distinct.
  unfold lookup_reviews. rewrite map_map. exact H.
Qed.

Lemma getTopStores_no_repeats_witness :
  NoDup (map _id (stores Samples.db_rated))
  /\ NoDup (map top_id (getTopStores Samples.db_rated)).
Proof.
  assert (H : NoDup (map _id (stores Samples.db_rated))).
  { simpl. repeat constructor; simpl; intuition discriminate. }
  split; [exact H | exact (getTopStores_no_repeats Samples.db_rated H)].
Defined.

Lemma filter_length_le {A : Type} (p : A -> bool) (l : list A) :
  List.length (filter p l) <= List.length l.
Proof. induction l as [|a t IH]; simpl; auto. destruct (p a); simpl; lia. Qed.

(** X11.  With fewer than 2 Reviews in the database, and so with none,
    [getTopStores] returns nothing, however many Stores there are. *)
Theorem getTopStores_needs_two_reviews (db : DB) :
  List.length (reviews db) < 2 -> getTopStores db = [].
Proof.
  intros H. destruct (getTopStores db) as [|t r] eqn:E; auto.
  exfalso.
  destruct (top_stores_in db t) as [s (_ & H2 & _)].
  - rewrite E. now left.
  - pose proof (filter_length_le (fun r => (store r =? _id s)%nat) (reviews db)) as L.
    unfold Query.reviews_of in H2. lia.
Qed.

Lemma getTopStores_needs_two_reviews_witness :
  List.length (reviews (mkDB (stores Samples.db_rated) [mkReview 1 1 5])) < 2
  /\ getTopStores (mkDB (stores Samples.db_rated) [mkReview 1 1 5]) = [].
Proof.
  assert (H : List.length (reviews (mkDB (stores Samples.db_rated) [mkReview 1 1 5])) < 2)
    by (simpl; lia).
  split; [exact H|].
  exact (getTopStores_needs_two_reviews
           (mkDB (stores Samples.db_rated) [mkReview 1 1 5]) H).
Defined.

(** ** Reads: what the caller populates, and whose Reviews are attached *)

(** X12.  An explicit [populate('reviews')] by the caller is redundant:
    the read returns the same documents with the same Reviews as without
    it. *)
Theorem explicit_populate_is_redundant (db : DB) (q : Query.Query) :
  Query.exec db (Query.populate "reviews" q) = Query.exec db q.
Proof. now rewrite !exec_shape. Qed.

Lemma same_id_same_store (l : list Store) (a b : Store) :
  NoDup (map _id l) -> In a l -> In b l -> _id a = _id b -> a = b.
Proof.
  induction l as [|x t IH]; cbn; [contradiction|].
  intros D Ha Hb E. apply NoDup_cons_iff in D. destruct D as [Hx D].
  destruct Ha as [->|Ha], Hb as [->|Hb]; auto; exfalso; apply Hx.
  - rewrite E. now apply in_map.
  - rewrite <- E. now apply in_map.
Qed.

(** X13.  When the Stores of the collection have distinct [_id]s, a
    Review is never attached to two different documents of one [find]. *)
Theorem review_attached_once (db : DB) (c : Store -> bool) :
  NoDup (map _id (stores db)) ->
  forall f1 f2 rs1 rs2 r,
    In f1 (Query.find db c) -> In f2 (Query.find db c) ->
    Query.fetched_reviews f1 = Some rs1 ->
    Query.fetched_reviews f2 = Some rs2 ->
    In r rs1 -> In r rs2 ->
    f1 = f2.
Proof.
  intros Hn f1 f2 rs1 rs2 r H1 H2 E1 E2 R1 R2.
  unfold Query.find in H1, H2. rewrite exec_shape in H1, H2. simpl in H1, H2.
  apply in_map_iff in H1. destruct H1 as [s1 [<- Hs1]].
  apply in_map_iff in H2. destruct H2 as [s2 [<- Hs2]].
  simpl in E1, E2. inversion E1; subst rs1. inversion E2; subst rs2.
  apply reviews_of_in in R1. apply reviews_of_in in R2.
  apply filter_In in Hs1. apply filter_In in Hs2.
  assert (s1 = s2).
  { apply (same_id_same_store (stores db)); try tauto.
    destruct R1 as [_ <-]. tauto. }
  now subst.
Qed.

Lemma review_attached_once_witness :
  NoDup (map _id (stores Samples.db_rated))
  /\ Query.mkFetched (Samples.new_store 2 "X" [])
                     (Some [mkReview 2 2 4; mkReview 4 2 5])
     = Query.mkFetched (Samples.new_store 2 "X" [])
                       (Some (Query.reviews_of Samples.db_rated
                                               (Samples.new_store 2 "X" []))).
Proof.
  assert (H : NoDup (map _id (stores Samples.db_rated))).
  { simpl. repeat constructor; simpl; intuition discriminate. }
  split; [exact H|].
  apply (review_attached_once
           Samples.db_rated (fun _ => true) H _ _
           [mkReview 2 2 4; mkReview 4 2 5]
           (Query.reviews_of Samples.db_rated (Samples.new_store 2 "X" []))
           (mkReview 2 2 4)).
  - simpl. right. now left.
  - simpl. right. now left.
  - reflexivity.
  - reflexivity.
  - now left.
  - now left.
Defined.

(** ** The mail handler: when nothing is sent *)

Section MailFailure.

Variable dirname : string.
Variable renderFile : string -> Mail.Options -> option string.
Variable juice : string -> string.
Variable fromString : string -> string.
Variable Receipt : Type.
Variable sendMail : Mail.MailOptions -> Receipt.

(** X14.  [send] hands nothing to the transport exactly when rendering
    the template [<dirname>/../views/email/<filename>.pug] fails or
    [options.user] is missing; in every other case the transport gets one
    mail. *)
Theorem send_fails_iff (options : Mail.Options) :
  Mail.send dirname renderFile juice fromString sendMail options = None
  <-> renderFile (dirname ++ "/../views/email/" ++ Mail.filename options ++ ".pug")
                 options = None
      \/ Mail.user options = None.
Proof.
  unfold Mail.send, Mail.mailOptions, Mail.generateHTML.
  destruct (renderFile _ options) as [html|];
    destruct (Mail.user options) as [u|]; split; intros H;
    try discriminate; auto; destruct H; discriminate.
Qed.

End MailFailure.

(** ** Trimming, character by character *)

Section DropEnds.

Variable A : Type.
Variable p : A -> bool.

Lemma drop_front_nil (l : list A) :
  JsString.drop_front p l = [] <-> forallb p l = true.
Proof.
  induction l as [|x t IH]; cbn; [tauto|].
  destruct (p x); cbn; auto. split; discriminate.
Qed.

Lemma drop_back_nil (l : list A) :
  JsString.drop_back p l = [] <-> forallb p l = true.
Proof.
  induction l as [|x t IH]; cbn; [tauto|].
  destruct (JsString.drop_back p t) as [|y r].
  - destruct (p x); cbn; [tauto|]. split; discriminate.
  - split; [discriminate|]. intros H. apply andb_true_iff in H.
    destruct IH as [_ IH]. specialize (IH (proj2 H)). discriminate.
Qed.

Lemma drop_front_clean (l : list A) :
  JsString.clean_front p (JsString.drop_front p l) = true.
Proof.
  induction l as [|x t IH]; cbn; auto.
  destruct (p x) eqn:E; auto. cbn. now rewrite E.
Qed.

Lemma drop_back_clean (l : list A) :
  JsString.clean_back p (JsString.drop_back p l) = true.
Proof.
  induction l as [|x t IH]; cbn; auto.
  destruct (JsString.drop_back p t) as [|y r].
  - destruct (p x) eqn:E; cbn; auto. now rewrite E.
  - exact IH.
Qed.

Lemma drop_back_keeps_front (l : list A) :
  JsString.clean_front p l = true ->
  JsString.clean_front p (JsString.drop_back p l) = true.
Proof.
  destruct l as [|x t]; cbn; auto.
  intros H. destruct (JsString.drop_back p t); [|exact H].
  apply negb_true_iff in H. rewrite H. cbn. now rewrite H.
Qed.

Lemma drop_front_same (l : list A) :
  JsString.clean_front p l = true -> JsString.drop_front p l = l.
Proof.
  destruct l as [|x t]; cbn; auto.
  intros H. apply negb_true_iff in H. now rewrite H.
Qed.

Lemma drop_back_same (l : list A) :
  JsString.clean_back p l = true -> JsString.drop_back p l = l.
Proof.
  induction l as [|x t IH]; cbn; auto.
  destruct t as [|y r].
  - cbn. intros H. apply negb_true_iff in H. now rewrite H.
  - intros H. rewrite (IH H). reflexivity.
Qed.

Lemma drop_ends_nil (l : list A) :
  JsString.drop_back p (JsString.drop_front p l) = [] <-> forallb p l = true.
Proof.
  rewrite drop_back_nil, <- (drop_front_nil l).
  pose proof (drop_front_clean l) as C.
  destruct (JsString.drop_front p l) as [|x t]; cbn in *;
    [split; intros; reflexivity|].
  apply negb_true_iff in C. rewrite C. cbn. split; discriminate.
Qed.

End DropEnds.

Lemma width_positive (c : ascii) : 1 <= JsString.width c.
Proof.
  unfold JsString.width.
  destruct (code c <? 192)%nat; [lia|].
  destruct (code c <? 224)%nat; [lia|].
  destruct (code c <? 240)%nat; lia.
Qed.

Lemma split_fuel (fuel1 : nat) :
  forall fuel2 l,
    List.length l <= fuel1 -> List.length l <= fuel2 ->
    JsString.split fuel1 l = JsString.split fuel2 l.
Proof.
  induction fuel1 as [|f1 IH]; intros fuel2 l H1 H2.
  - destruct l; [|cbn in H1; lia]. destruct fuel2; reflexivity.
  - destruct l as [|c t]; [destruct fuel2; reflexivity|].
    destruct fuel2 as [|f2]; [cbn in H2; lia|].
    cbn [JsString.split]. f_equal.
    pose proof (width_positive c) as W.
    pose proof (length_skipn (JsString.width c) (c :: t)) as L.
    cbn [List.length] in *.
    apply IH; lia.
Qed.

Lemma characters_cons (c : ascii) (t : list ascii) :
  JsString.characters (c :: t)
  = firstn (JsString.width c) (c :: t)
    :: JsString.characters (skipn (JsString.width c) (c :: t)).
Proof.
  unfold JsString.characters. cbn [List.length JsString.split]. f_equal.
  pose proof (width_positive c) as W.
  pose proof (length_skipn (JsString.width c) (c :: t)) as L.
  cbn [List.length] in L.
  apply split_fuel; lia.
Qed.

Lemma well_split_cons (ch ch2 : list ascii) (rest : list (list ascii)) :
  JsString.well_split (ch :: ch2 :: rest)
  = JsString.whole ch && JsString.well_split (ch2 :: rest).
Proof. reflexivity. Qed.

Lemma well_split_characters :
  forall n l, List.length l <= n -> JsString.well_split (JsString.characters l) = true.
Proof.
  induction n as [|n IH]; intros l H.
  - destruct l; [reflexivity | cbn in H; lia].
  - destruct l as [|c t]; [reflexivity|].
    rewrite characters_cons.
    pose proof (width_positive c) as W.
    pose proof (length_skipn (JsString.width c) (c :: t)) as L.
    pose proof (length_firstn (JsString.width c) (c :: t)) as F.
    cbn [List.length] in *.
    assert (R : JsString.well_split
                  (JsString.characters (skipn (JsString.width c) (c :: t))) = true)
      by (apply IH; lia).
    destruct (JsString.width c) as [|w] eqn:Ew; [lia|].
    cbn [firstn skipn] in *.
    destruct (skipn w t) as [|d r] eqn:Es.
    + cbn. rewrite Ew. apply Nat.leb_le. cbn [List.length] in F. lia.
    + rewrite characters_cons in R |- *. rewrite well_split_cons, R, andb_true_r.
      cbn [JsString.whole]. rewrite Ew.
      apply Nat.eqb_eq. cbn [List.length] in *. lia.
Qed.

Lemma well_split_drop_front (p : list ascii -> bool) (cs : list (list ascii)) :
  JsString.well_split cs = true ->
  JsString.well_split (JsString.drop_front p cs) = true.
Proof.
  induction cs as [|ch rest IH]; cbn [JsString.drop_front]; auto.
  intros H. destruct (p ch); auto.
  apply IH. cbn [JsString.well_split] in H.
  destruct rest; [reflexivity|]. apply andb_true_iff in H. tauto.
Qed.

Lemma whole_started (ch : list ascii) :
  JsString.whole ch = true -> JsString.started ch = true.
Proof.
  destruct ch as [|c t]; cbn [JsString.whole JsString.started]; auto.
  intros H. apply Nat.eqb_eq in H. apply Nat.leb_le. lia.
Qed.

Lemma well_split_drop_back (p : list ascii -> bool) (cs : list (list ascii)) :
  JsString.well_split cs = true ->
  JsString.well_split (JsString.drop_back p cs) = true.
Proof.
  induction cs as [|ch rest IH]; cbn [JsString.drop_back]; auto.
  intros H. cbn [JsString.well_split] in H.
  destruct rest as [|ch2 rest2].
  - cbn. destruct (p ch); auto.
  - apply andb_true_iff in H. destruct H as [Hw Hr]. specialize (IH Hr).
    destruct (JsString.drop_back p (ch2 :: rest2)) as [|y r].
    + destruct (p ch); auto. cbn. now apply whole_started.
    + cbn [JsString.well_split] in *. now rewrite Hw, IH.
Qed.

Lemma well_split_concat_nil (cs : list (list ascii)) :
  JsString.well_split cs = true -> List.concat cs = [] -> cs = [].
Proof.
  destruct cs as [|ch rest]; auto.
  intros H E. exfalso. cbn in E. apply app_eq_nil in E. destruct E as [-> _].
  cbn in H. destruct rest; discriminate.
Qed.

Lemma characters_concat (cs : list (list ascii)) :
  JsString.well_split cs = true -> JsString.characters (List.concat cs) = cs.
Proof.
  induction cs as [|ch rest IH]; auto.
  intros H. cbn [JsString.well_split] in H.
  destruct ch as [|c t].
  { destruct rest; discriminate. }
  cbn [List.concat]. rewrite <- app_comm_cons, characters_cons.
  rewrite app_comm_cons.
  destruct rest as [|ch2 rest2].
  - cbn [List.concat]. rewrite app_nil_r.
    cbn [JsString.started] in H. apply Nat.leb_le in H.
    rewrite firstn_all2, skipn_all2 by exact H. reflexivity.
  - apply andb_true_iff in H. destruct H as [Hw Hr].
    cbn [JsString.whole] in Hw. apply Nat.eqb_eq in Hw.
    rewrite <- Hw.
    rewrite firstn_app, firstn_all, Nat.sub_diag, firstn_O, app_nil_r.
    rewrite skipn_app, skipn_all, Nat.sub_diag, skipn_O.
    cbn [app]. f_equal. now apply IH.
Qed.

Lemma kept_well_split (l : list ascii) :
  JsString.well_split (JsString.kept l) = true.
Proof.
  unfold JsString.kept.
  apply well_split_drop_back, well_split_drop_front.
  now apply (well_split_characters (List.length l)).
Qed.

Lemma trim_empty (v : string) :
  JsString.trim v = ""
  <-> forallb JsString.is_white (Schema.characters_of v) = true.
Proof.
  unfold JsString.trim, Schema.characters_of.
  rewrite <- drop_ends_nil. fold (JsString.kept (list_ascii_of_string v)).
  split.
  - intros E. apply well_split_concat_nil; [apply kept_well_split|].
    destruct (List.concat (JsString.kept (list_ascii_of_string v)));
      [reflexivity | discriminate].
  - intros ->. reflexivity.
Qed.

Lemma characters_of_trim (v : string) :
  Schema.characters_of (JsString.trim v) = JsString.kept (list_ascii_of_string v).
Proof.
  unfold Schema.characters_of, JsString.trim.
  rewrite list_ascii_of_string_of_list_ascii.
  apply characters_concat, kept_well_split.
Qed.

Lemma trim_trim (v : string) : JsString.trim (JsString.trim v) = JsString.trim v.
Proof.
  unfold JsString.trim at 1. unfold JsString.kept.
  fold (Schema.characters_of (JsString.trim v)).
  rewrite characters_of_trim. unfold JsString.kept.
  rewrite drop_front_same
    by (apply drop_back_keeps_front, drop_front_clean).
  rewrite drop_back_same by apply drop_back_clean.
  reflexivity.
Qed.

(** ** The name path of the schema *)

(** X15.  The [name] path is trimmed when set and then required, names
    being read as UTF-8: a name that is missing, empty or made only of
    the white space that [String.prototype.trim] removes (U+00A0 and the
    other Unicode spaces included) is refused with
    ["Please enter a store name!"], and no other name is; a name that
    passes is stored non-empty, with no such white space as its first or
    its last character, and setting it again leaves it as it is. *)
Theorem name_is_trimmed_and_required (raw : option string) :
  (Schema.validate_name raw = Some "Please enter a store name!"
   <-> raw = None
       \/ exists v, raw = Some v
                    /\ forallb JsString.is_white (Schema.characters_of v) = true)
  /\ (Schema.validate_name raw = None ->
      exists v,
        Schema.set_name raw = Some v
        /\ v <> ""
        /\ JsString.clean_front JsString.is_white (Schema.characters_of v) = true
        /\ JsString.clean_back JsString.is_white (Schema.characters_of v) = true
        /\ Schema.trim_setter v = v).
Proof.
  unfold Schema.validate_name. destruct raw as [v|]; cbn [Schema.set_name].
  - unfold Schema.trim_setter.
    pose proof (trim_empty v) as T.
    destruct (JsString.trim v) as [|c t] eqn:E; cbn [Schema.required_string].
    + split; [|discriminate]. split; auto. intros _. right. exists v.
      split; auto. now apply T.
    + split.
      * split; [discriminate|]. intros [H|[w [H Hw]]]; [discriminate|].
        inversion H; subst w. apply T in Hw. discriminate.
      * intros _. exists (String c t). rewrite <- E.
        repeat split.
        -- rewrite E. discriminate.
        -- rewrite characters_of_trim. unfold JsString.kept.
           apply drop_back_keeps_front, drop_front_clean.
        -- rewrite characters_of_trim. unfold JsString.kept.
           apply drop_back_clean.
        -- apply trim_trim.
  - cbn. split; [|discriminate]. split; auto.
Qed.

Lemma name_is_trimmed_and_required_witness :
  Schema.validate_name (Some "  Clean Eating ") = None
  /\ Schema.set_name (Some "  Clean Eating ") = Some "Clean Eating"
  /\ exists v, Schema.set_name (Some "  Clean Eating ") = Some v /\ v <> "".
Proof.
  split; [reflexivity|]. split; [reflexivity|].
  destruct (proj2 (name_is_trimmed_and_required (Some "  Clean Eating ")) eq_refl)
    as [v (Hv & Hne & _)].
  exists v. split; [exact Hv | exact Hne].
Defined.
